(** * PocketRetriever: the resumable paginated retrieval of [pocket_export.py]

    A shallow embedding of the checkpoint store ([_read_checkpoint],
    [_write_checkpoint]), of the HTTP session configured by [_make_session],
    of the pagination driver [fetch_pocket_items], of the authorization calls
    and of the extraction loop of [main], followed by the properties of the
    specification that concern them. *)

From Stdlib Require Import ZArith List Bool Ascii String Lia Sorted.
From Stdlib Require Import Decimal DecimalString DecimalPos DecimalZ.
Import ListNotations.

Local Open Scope string_scope.
Local Open Scope Z_scope.
Local Open Scope list_scope.

(** ** Python values and exceptions *)

(** The result of [r.json()]: the JSON data model as Python objects.  A
    [PDict] keeps the insertion order of its keys, which is the order
    [dict.values()] follows.  JSON numbers with a fraction are left out. *)
#[warnings="-register-all"] Inductive pyval : Type :=
| PNone
| PBool (b : bool)
| PInt (z : Z)
| PStr (s : string)
| PList (l : list pyval)
| PDict (d : list (string * pyval)).

(** Exceptions under [requests.exceptions.RequestException], the class the
    handler of the fetch loop catches. *)
Inductive request_exception : Type :=
| ConnectionError
| InvalidHeader
| HTTPError (status : Z).

(** Exceptions that leave [fetch_pocket_items]. *)
Inductive exn : Type :=
| JSONDecodeError
| AttributeError
| TypeError
| ValueError.

Inductive result (A : Type) : Type :=
| Ok (a : A)
| Raise (e : exn).
Arguments Ok {A} a.
Arguments Raise {A} e.

Definition bind {A B : Type} (m : result A) (k : A -> result B) : result B :=
  match m with
  | Ok a => k a
  | Raise e => Raise e
  end.

Notation "x <- m ;; k" := (bind m (fun x => k))
  (at level 61, m at next level, right associativity).

(** ** [str] and [int] on integers *)

(** [str(n)] for a Python [int]: the decimal digits, no leading zero, with a
    leading minus sign for a negative number.  The limit an interpreter may
    put on the number of digits of a conversion (4300 by default from
    CPython 3.11 on) is not part of the model, here and in [py_int]. *)
Definition py_str (z : Z) : string := NilZero.string_of_int (Z.to_int z).

(** The characters [int] skips at both ends of an ASCII text: the tab to
    carriage return range and the space. *)
Definition is_space (c : ascii) : bool :=
  let n := nat_of_ascii c in
  ((9 <=? n) && (n <=? 13) || (n =? 32))%nat.

Definition is_digit (c : ascii) : bool :=
  let n := nat_of_ascii c in
  ((48 <=? n) && (n <=? 57))%nat.

Fixpoint lstrip (s : string) : string :=
  match s with
  | EmptyString => EmptyString
  | String c r => if is_space c then lstrip r else s
  end.

Fixpoint rstrip (s : string) : string :=
  match s with
  | EmptyString => EmptyString
  | String c r =>
      match rstrip r with
      | EmptyString => if is_space c then EmptyString else String c EmptyString
      | r' => String c r'
      end
  end.

Definition strip (s : string) : string := rstrip (lstrip s).

(** What the scanner of digit groups saw last. *)
Inductive seen : Type := SeenNothing | SeenDigit | SeenUnderscore.

(** The digits of a literal once its underscores are taken out; an underscore
    is accepted between two digits only, so the literal starts and ends with
    a digit and has no two underscores in a row. *)
Fixpoint digit_groups (prev : seen) (s : string) : option string :=
  match s with
  | EmptyString =>
      match prev with
      | SeenDigit => Some EmptyString
      | _ => None
      end
  | String c r =>
      if is_digit c then option_map (String c) (digit_groups SeenDigit r)
      else if Ascii.eqb c "_" then
        match prev with
        | SeenDigit => digit_groups SeenUnderscore r
        | _ => None
        end
      else None
  end.

Definition unsigned_literal (s : string) : option Z :=
  match digit_groups SeenNothing s with
  | Some ds => option_map Z.of_uint (NilEmpty.uint_of_string ds)
  | None => None
  end.

(** [int] on a text of ASCII characters, in base ten: surrounding whitespace
    is dropped, one sign is accepted, then come digit groups.  [None] stands
    for the [ValueError]. *)
Definition int_of_ascii (s : string) : option Z :=
  match strip s with
  | EmptyString => None
  | String c r =>
      if Ascii.eqb c "-" then option_map Z.opp (unsigned_literal r)
      else if Ascii.eqb c "+" then unsigned_literal r
      else unsigned_literal (String c r)
  end.

(** A Python string is held as the bytes of its UTF-8 encoding.  Decoding
    gives its code points back, and [None] for bytes that are no UTF-8: a
    stray or missing continuation byte, an overlong form, a surrogate, a code
    point past [0x10FFFF]. *)
Definition continuation (c : ascii) : option N :=
  let b := N_of_ascii c in
  if ((128 <=? b) && (b <? 192))%N then Some (b - 128)%N else None.

Fixpoint utf8_decode (s : string) : option (list N) :=
  match s with
  | EmptyString => Some []
  | String c0 r0 =>
      let b0 := N_of_ascii c0 in
      if (b0 <? 128)%N then option_map (cons b0) (utf8_decode r0)
      else if (b0 <? 194)%N then None
      else if (b0 <? 224)%N then
        match r0 with
        | String c1 r1 =>
            match continuation c1 with
            | Some x1 => option_map (cons ((b0 - 192) * 64 + x1)%N) (utf8_decode r1)
            | None => None
            end
        | _ => None
        end
      else if (b0 <? 240)%N then
        match r0 with
        | String c1 (String c2 r2) =>
            match continuation c1, continuation c2 with
            | Some x1, Some x2 =>
                let cp := ((b0 - 224) * 4096 + x1 * 64 + x2)%N in
                if ((cp <? 2048) || (55296 <=? cp) && (cp <? 57344))%N then None
                else option_map (cons cp) (utf8_decode r2)
            | _, _ => None
            end
        | _ => None
        end
      else if (b0 <? 245)%N then
        match r0 with
        | String c1 (String c2 (String c3 r3)) =>
            match continuation c1, continuation c2, continuation c3 with
            | Some x1, Some x2, Some x3 =>
                let cp := ((b0 - 240) * 262144 + x1 * 4096 + x2 * 64 + x3)%N in
                if ((cp <? 65536) || (1114111 <? cp))%N then None
                else option_map (cons cp) (utf8_decode r3)
            | _, _, _ => None
            end
        | _ => None
        end
      else None
  end.

(** The whitespace characters past ASCII and the first digit of every run of
    ten decimal digits past ASCII, as in Unicode 14.0.0, the database of
    CPython 3.11. *)
Definition unicode_spaces : list N :=
  [
    0x85; 0xA0; 0x1680; 0x2000; 0x2001; 0x2002; 0x2003; 0x2004; 0x2005;
    0x2006; 0x2007; 0x2008; 0x2009; 0x200A; 0x2028; 0x2029; 0x202F; 0x205F;
    0x3000 ]%N.

Definition decimal_blocks : list N :=
  [
    0x660; 0x6F0; 0x7C0; 0x966; 0x9E6; 0xA66; 0xAE6; 0xB66; 0xBE6; 0xC66;
    0xCE6; 0xD66; 0xDE6; 0xE50; 0xED0; 0xF20; 0x1040; 0x1090; 0x17E0; 0x1810;
    0x1946; 0x19D0; 0x1A80; 0x1A90; 0x1B50; 0x1BB0; 0x1C40; 0x1C50; 0xA620;
    0xA8D0; 0xA900; 0xA9D0; 0xA9F0; 0xAA50; 0xABF0; 0xFF10; 0x104A0; 0x10D30;
    0x11066; 0x110F0; 0x11136; 0x111D0; 0x112F0; 0x11450; 0x114D0; 0x11650;
    0x116C0; 0x11730; 0x118E0; 0x11950; 0x11C50; 0x11D50; 0x11DA0; 0x16A60;
    0x16AC0; 0x16B50; 0x1D7CE; 0x1D7D8; 0x1D7E2; 0x1D7EC; 0x1D7F6; 0x1E140;
    0x1E2F0; 0x1E950; 0x1FBF0 ]%N.

Definition is_unicode_space (cp : N) : bool := existsb (N.eqb cp) unicode_spaces.

Definition unicode_decimal (cp : N) : option N :=
  match find (fun b => (b <=? cp) && (cp <? b + 10))%N decimal_blocks with
  | Some b => Some (cp - b)%N
  | None => None
  end.

(** What [int] does to a text before it reads it: a character below 127 is
    kept, a whitespace character becomes a space and a decimal digit becomes
    its ASCII digit; any other character makes [int] raise. *)
Fixpoint to_ascii (cps : list N) : option string :=
  match cps with
  | [] => Some EmptyString
  | cp :: rest =>
      if (cp <? 127)%N then option_map (String (ascii_of_N cp)) (to_ascii rest)
      else if is_unicode_space cp then option_map (String " ") (to_ascii rest)
      else
        match unicode_decimal cp with
        | Some d => option_map (String (ascii_of_N (48 + d))) (to_ascii rest)
        | None => None
        end
  end.

(** [int(s)] for a string, and for the text [read_text] gives for the bytes
    of a file under a UTF-8 locale, where bytes that do not decode raise as
    well.  [None] stands for the exception. *)
Definition py_int (s : string) : option Z :=
  match utf8_decode s with
  | Some cps =>
      match to_ascii cps with
      | Some t => int_of_ascii t
      | None => None
      end
  | None => None
  end.

(** ** Checkpoint store *)

(** The file at [CHECKPOINT]: absent, or present with its text. *)
Definition checkpoint_file : Type := option string.

(** [_read_checkpoint]: [int(CHECKPOINT.read_text())], and [0] on any
    exception: the missing file as well as the text [int] rejects. *)
Definition _read_checkpoint (f : checkpoint_file) : Z :=
  match f with
  | None => 0
  | Some text =>
      match py_int text with
      | Some n => n
      | None => 0
      end
  end.

(** [_write_checkpoint]: [CHECKPOINT.write_text(str(offset))]. *)
Definition _write_checkpoint (offset : Z) (f : checkpoint_file) : checkpoint_file :=
  Some (py_str offset).

(** [CHECKPOINT.unlink(missing_ok=True)]. *)
Definition unlink_missing_ok (f : checkpoint_file) : checkpoint_file := None.

(** ** Configuration and the request *)

Definition MAX_BATCH : Z := 30.

(** The value of [CONSUMER_KEY] when [POCKET_CONSUMER_KEY] is not set. *)
Definition CONSUMER_KEY : string := "114692-452aa92a814fd6b440742ce".

(** The form fields of one page request, in the order of the [payload]
    dictionary of the loop. *)
Definition form : Type := list (string * string).

Definition payload (access_token : string) (batch_size offset : Z) : form :=
  [ ("consumer_key", CONSUMER_KEY);
    ("access_token", access_token);
    ("state", "all");
    ("detailType", "complete");
    ("sort", "newest");
    ("count", py_str batch_size);
    ("offset", py_str offset);
    ("total", "1") ].

Fixpoint field {V : Type} (key : string) (d : list (string * V)) : option V :=
  match d with
  | [] => None
  | (k, v) :: rest => if String.eqb k key then Some v else field key rest
  end.

(** ** The HTTP session of [_make_session] *)

(** A response as the loop uses it: the status line and what [r.json()]
    gives, [None] when the body is not JSON. *)
Record response : Type := { status_code : Z; json : option pyval }.

(** The value of a [Retry-After] header: empty, neither a number of seconds
    nor a date, or one that can be read. *)
Inductive retry_after : Type :=
| Blank
| Garbled
| Wait.

(** One exchange on the wire: the connection fails or times out before a
    response arrives, a response arrives without [Retry-After] header, or one
    arrives with it.  Responses that redirect and bodies that break off while
    they are read are not part of the model. *)
Inductive reply : Type :=
| NoReply
| Reply (r : response)
| ReplyAfter (r : response) (h : retry_after).

Definition response_of (a : reply) : option response :=
  match a with
  | NoReply => None
  | Reply r | ReplyAfter r _ => Some r
  end.

(** The remote end: its answer to a request, given how many requests it has
    received before. *)
Definition server : Type := nat -> form -> reply.

(** [Retry(total=5, status_forcelist=[500, 502, 503, 504],
    allowed_methods=["GET", "POST"], raise_on_status=False)]. *)
Definition retry_total : nat := 5.
Definition status_forcelist : list Z := [500; 502; 503; 504].

Definition forced (status : Z) : bool := existsb (Z.eqb status) status_forcelist.

(** The statuses the session tries again when the response names a time to
    wait, which [Retry] does unless told otherwise. *)
Definition retry_after_statuses : list Z := [413; 429; 503].

Definition waits (status : Z) (h : retry_after) : bool :=
  match h with
  | Blank => false
  | Garbled | Wait => existsb (Z.eqb status) retry_after_statuses
  end.

(** The adapter mounted by [_make_session], as [requests] 2 and [urllib3]
    1.26 or later run it: a failed exchange, a status of the force list and
    a status 413, 429 or 503 with a [Retry-After] header are tried again
    while the budget lasts.  When it is spent a connection failure is raised
    as a [RequestException], while the last response is handed back, for
    [raise_on_status] is off.  Before it tries again after a response, the
    session reads the [Retry-After] header if there is one, and raises
    [InvalidHeader] when it cannot.  [log] collects every request put on the
    wire.  The sleeps between the tries are not part of the model. *)
Fixpoint send (retries : nat) (srv : server) (log : list form) (p : form)
  : (request_exception + response) * list form :=
  let log' := log ++ [p] in
  match srv (List.length log) p with
  | NoReply =>
      match retries with
      | O => (inl ConnectionError, log')
      | S k => send k srv log' p
      end
  | Reply r =>
      if forced (status_code r) then
        match retries with
        | O => (inr r, log')
        | S k => send k srv log' p
        end
      else (inr r, log')
  | ReplyAfter r h =>
      if forced (status_code r) || waits (status_code r) h then
        match retries with
        | O => (inr r, log')
        | S k =>
            match h with
            | Wait => send k srv log' p
            | Blank | Garbled => (inl InvalidHeader, log')
            end
        end
      else (inr r, log')
  end.

(** [_post]: [SESSION.post(url, data=data, headers=HEADERS_FORM, timeout=REQ_TIMEOUT)]. *)
Definition _post (srv : server) (log : list form) (data : form)
  : (request_exception + response) * list form :=
  send retry_total srv log data.

(** [r.raise_for_status()]: an [HTTPError] for a status from 400 to 599. *)
Definition raise_for_status (r : response) : option request_exception :=
  if (400 <=? status_code r) && (status_code r <? 600)
  then Some (HTTPError (status_code r))
  else None.

(** ** Reading the response *)

(** [data.get(key, default)]; only a dictionary has [get]. *)
Definition get (data : pyval) (key : string) (default : pyval) : result pyval :=
  match data with
  | PDict d =>
      Ok (match field key d with
          | Some v => v
          | None => default
          end)
  | _ => Raise AttributeError
  end.

(** [list(d.values())]; only a dictionary has [values]. *)
Definition values (d : pyval) : result (list pyval) :=
  match d with
  | PDict kvs => Ok (map snd kvs)
  | _ => Raise AttributeError
  end.

(** [int(v)] on a JSON value. *)
Definition int_of (v : pyval) : result Z :=
  match v with
  | PInt z => Ok z
  | PBool b => Ok (if b then 1 else 0)
  | PStr s =>
      match py_int s with
      | Some z => Ok z
      | None => Raise ValueError
      end
  | PNone | PList _ | PDict _ => Raise TypeError
  end.

(** ** The pagination driver *)

(** The lines the driver prints. *)
Inductive message : Type :=
| BatchCapNotice (batch_size : Z)
| ResumeNotice (offset : Z)
| HiccupNotice (offset : Z) (exc : request_exception).

(** The variables of [fetch_pocket_items] and the world around it: the
    checkpoint file, the requests sent so far, the lines printed and the
    number of [time.sleep(5)] calls. *)
Record state : Type := {
  batch_size : Z;
  offset : Z;
  all_items : list pyval;
  checkpoint : checkpoint_file;
  sent : list form;
  stdout : list message;
  naps : nat
}.

(** How one pass through the body of [while True] ends. *)
Inductive flow : Type :=
| Continue (st : state)
| Break (st : state)
| Throw (e : exn) (st : state).

(** The [try] block: [_post] then [raise_for_status], with the requests it
    put on the wire. *)
Definition try_post (srv : server) (log : list form) (p : form)
  : (request_exception + response) * list form :=
  match _post srv log p with
  | (inl exc, log') => (inl exc, log')
  | (inr r, log') =>
      match raise_for_status r with
      | Some exc => (inl exc, log')
      | None => (inr r, log')
      end
  end.

(** [list(data.get("list", {}).values())]. *)
Definition batch_of (data : pyval) : result (list pyval) :=
  l <- get data "list" (PDict []) ;; values l.

(** [int(data.get("total", offset))]. *)
Definition total_of (data : pyval) (offset : Z) : result Z :=
  t <- get data "total" (PInt offset) ;; int_of t.

Definition loop_body (srv : server) (access_token : string) (st : state) : flow :=
  let p := payload access_token (batch_size st) (offset st) in
  match try_post srv (sent st) p with
  | (inl exc, log) =>
      Continue {| batch_size := batch_size st; offset := offset st;
                  all_items := all_items st; checkpoint := checkpoint st;
                  sent := log;
                  stdout := stdout st ++ [HiccupNotice (offset st) exc];
                  naps := S (naps st) |}
  | (inr r, log) =>
      let st1 := {| batch_size := batch_size st; offset := offset st;
                    all_items := all_items st; checkpoint := checkpoint st;
                    sent := log; stdout := stdout st; naps := naps st |} in
      match json r with
      | None => Throw JSONDecodeError st1
      | Some data =>
          match batch_of data with
          | Raise e => Throw e st1
          | Ok [] => Break st1
          | Ok batch =>
              let offset' := offset st + Z.of_nat (List.length batch) in
              let st2 := {| batch_size := batch_size st; offset := offset';
                            all_items := all_items st ++ batch;
                            checkpoint := _write_checkpoint offset' (checkpoint st);
                            sent := log; stdout := stdout st; naps := naps st |} in
              match total_of data offset' with
              | Raise e => Throw e st2
              | Ok total_available =>
                  if offset' >=? total_available then Break st2 else Continue st2
              end
          end
      end
  end.

(** How a run stands after a number of passes: it returned, an exception left
    it, or it is still in the loop. *)
Inductive outcome : Type :=
| Returned (items : list pyval) (st : state)
| Raised (e : exn) (st : state)
| Running (st : state).

(** What follows the loop: the checkpoint is unlinked and [all_items] is
    returned. *)
Definition finish (st : state) : outcome :=
  Returned (all_items st)
    {| batch_size := batch_size st; offset := offset st;
       all_items := all_items st;
       checkpoint := unlink_missing_ok (checkpoint st);
       sent := sent st; stdout := stdout st; naps := naps st |}.

(** [while True], cut after [fuel] passes. *)
Fixpoint while_true (fuel : nat) (srv : server) (access_token : string) (st : state) : outcome :=
  match fuel with
  | O => Running st
  | S fuel' =>
      match loop_body srv access_token st with
      | Continue st' => while_true fuel' srv access_token st'
      | Break st' => finish st'
      | Throw e st' => Raised e st'
      end
  end.

(** The state on entry to the loop: the batch size is capped with one line
    printed, the offset comes from the checkpoint, nothing is accumulated. *)
Definition start (batch_size : Z) (f : checkpoint_file) : state :=
  let capped := batch_size >? MAX_BATCH in
  let offset := _read_checkpoint f in
  {| batch_size := if capped then MAX_BATCH else batch_size;
     offset := offset;
     all_items := [];
     checkpoint := f;
     sent := [];
     stdout := (if capped then [BatchCapNotice batch_size] else [])
               ++ (if offset =? 0 then [] else [ResumeNotice offset]);
     naps := O |}.

Definition fetch_pocket_items (fuel : nat) (srv : server) (f : checkpoint_file)
    (access_token : string) (batch_size : Z) : outcome :=
  while_true fuel srv access_token (start batch_size f).

(** ** A simulated remote collection *)

(** Items by identifier, newest first. *)
Definition collection : Type := list (string * pyval).

(** The page a collection serves for the [offset] and [count] fields of a
    request, with the size of the collection as [total]. *)
Definition remote (coll : collection) : server := fun _ p =>
  match field "offset" p, field "count" p with
  | Some o, Some c =>
      match py_int o, py_int c with
      | Some o, Some c =>
          Reply {| status_code := 200;
                   json := Some (PDict
                     [ ("list", PDict (firstn (Z.to_nat c) (skipn (Z.to_nat o) coll)));
                       ("total", PInt (Z.of_nat (List.length coll))) ]) |}
      | _, _ => Reply {| status_code := 400; json := None |}
      end
  | _, _ => Reply {| status_code := 400; json := None |}
  end.

(** A collection of [n] items [item0], [item1], ... *)
Definition numbered (n : nat) : collection :=
  map (fun i => (py_str (Z.of_nat i), PDict [("item_id", PStr (py_str (Z.of_nat i)))])) (seq 0 n).

(** A remote end that answers every request with the same status. *)
Definition always (status : Z) : server := fun _ _ =>
  Reply {| status_code := status; json := None |}.

(** The offsets and sizes requested, as sent. *)
Definition offsets_of (log : list form) : list (option string) := map (field "offset") log.
Definition counts_of (log : list form) : list (option string) := map (field "count") log.

(** A string made of decimal digits only. *)
Fixpoint digits_only (s : string) : bool :=
  match s with
  | EmptyString => true
  | String c r => is_digit c && digits_only r
  end.

(** The state reached once the run is known to be still in the loop. *)
Definition state_of (o : outcome) : state :=
  match o with
  | Returned _ st | Raised _ st | Running st => st
  end.

Definition is_cap_notice (m : message) : bool :=
  match m with
  | BatchCapNotice _ => true
  | _ => false
  end.

(** The number of pages of size [P] that cover [N] items, rounded up. *)
Definition pages_needed (N P : Z) : Z := (N + P - 1) / P.

(** The number of items in the page a reply carries. *)
Definition page_size (r : reply) : option nat :=
  match r with
  | Reply {| json := Some data |} =>
      match batch_of data with
      | Ok batch => Some (List.length batch)
      | Raise _ => None
      end
  | _ => None
  end.

(** What one pass through the loop body may change, whichever way it ends:
    the request of this pass goes on the wire at least once, a page of items
    may be merged, and the checkpoint is rewritten exactly when the page is
    not empty. *)
Definition advances (access_token : string) (st st' : state) : Prop :=
  batch_size st' = batch_size st
  /\ (exists k, sent st' =
         sent st ++ repeat (payload access_token (batch_size st) (offset st)) (S k))
  /\ (exists batch,
         all_items st' = all_items st ++ batch
         /\ offset st' = offset st + Z.of_nat (List.length batch)
         /\ (batch = [] /\ checkpoint st' = checkpoint st
             \/ batch <> [] /\ checkpoint st' = Some (py_str (offset st'))))
  /\ (exists notes,
         stdout st' = stdout st ++ notes /\ filter is_cap_notice notes = []).

(** Every request of a log asks for an offset of at least [O]. *)
Definition requests_from (O : Z) (log : list form) : Prop :=
  Forall (fun p => exists o, field "offset" p = Some (py_str o) /\ O <= o) log.

(** Every request of a log asks for [n] items. *)
Definition requests_of_size (n : Z) (log : list form) : Prop :=
  Forall (fun p => field "count" p = Some (py_str n)) log.

(** The bookkeeping of a run that started from the offset [O]: the checkpoint
    reads as the current offset, which is [O] plus the number of items
    accumulated, and every request asked for an offset from [O] on. *)
Definition bookkeeping (O : Z) (st : state) : Prop :=
  _read_checkpoint (checkpoint st) = offset st
  /\ Z.of_nat (List.length (all_items st)) = offset st - O
  /\ requests_from O (sent st).

(** A remote end whose JSON objects never carry a [total] field. *)
Definition omits_total (srv : server) : Prop :=
  forall i p r d,
    response_of (srv i p) = Some r -> json r = Some (PDict d) -> field "total" d = None.

(** A remote end that answers every request with a status of the 4xx or 5xx
    range, and one that answers every request with a status of the force
    list, in responses that carry no [Retry-After] header. *)
Definition always_rejects (srv : server) : Prop :=
  forall i p, exists r, srv i p = Reply r /\ 400 <= status_code r < 600.

Definition always_forced (srv : server) : Prop :=
  forall i p, exists r, srv i p = Reply r /\ forced (status_code r) = true.

(** A remote end that answers every request with the same body. *)
Definition answers (status : Z) (data : option pyval) : server := fun _ _ =>
  Reply {| status_code := status; json := data |}.

(** A remote end out of reach for its first [n] requests. *)
Definition after_outage (n : nat) (srv : server) : server := fun i p =>
  if (i <? n)%nat then NoReply else srv i p.

(** An exchange the adapter wants to make again: no reply, a status of the
    force list, or a status 413, 429 or 503 with a [Retry-After] header. *)
Definition retried (a : reply) : bool :=
  match a with
  | NoReply => true
  | Reply r => forced (status_code r)
  | ReplyAfter r h => forced (status_code r) || waits (status_code r) h
  end.

(** The [Retry-After] header of a reply, when it has one the session cannot
    read. *)
Definition unreadable (a : reply) : bool :=
  match a with
  | ReplyAfter _ Blank | ReplyAfter _ Garbled => true
  | _ => false
  end.

(** How a call that made [S k] exchanges with a budget of [retries] ends,
    given the reply [a] to the last of them. *)
Definition ends_with (retries k : nat) (a : reply)
    (res : request_exception + response) : Prop :=
  match res with
  | inl ConnectionError => k = retries /\ a = NoReply
  | inl InvalidHeader => (k < retries)%nat /\ retried a = true /\ unreadable a = true
  | inl (HTTPError _) => False
  | inr r => response_of a = Some r /\ (retried a = true -> k = retries)
  end.

(** A string made of the ASCII whitespace [int] skips. *)
Fixpoint spaces_only (s : string) : bool :=
  match s with
  | EmptyString => true
  | String c r => is_space c && spaces_only r
  end.

Definition is_hiccup (m : message) : bool :=
  match m with
  | HiccupNotice _ _ => true
  | _ => false
  end.

Definition is_dict (v : pyval) : bool :=
  match v with
  | PDict _ => true
  | _ => false
  end.

(** The response a collection gives for the page of [size] items at [o]. *)
Definition page_of (coll : collection) (size o : nat) : response :=
  {| status_code := 200;
     json := Some (PDict [ ("list", PDict (firstn size (skipn o coll)));
                           ("total", PInt (Z.of_nat (List.length coll))) ]) |}.

(** ** The authorization calls *)

(** The value of [REDIRECT_URI] when [POCKET_REDIRECT_URI] is not set. *)
Definition REDIRECT_URI : string := "http://127.0.0.1:51337/finish".

(** What leaves a function that has no handler of its own: an exception of
    the [requests] family, one of the exceptions above, or a [KeyError]. *)
Inductive error : Type :=
| Request (exc : request_exception)
| Python (e : exn)
| KeyError (key : string).

(** [v[key]] for a string key: only a dictionary can be indexed by it. *)
Definition subscript (v : pyval) (key : string) : error + pyval :=
  match v with
  | PDict d =>
      match field key d with
      | Some x => inr x
      | None => inl (KeyError key)
      end
  | _ => inl (Python TypeError)
  end.

(** [_request_token]: one [_post], [raise_for_status], then the [code] field
    of the body.  The address posted to is not part of the model; the remote
    end tells the calls apart by their fields. *)
Definition _request_token (srv : server) (log : list form) : (error + pyval) * list form :=
  match _post srv log [("consumer_key", CONSUMER_KEY); ("redirect_uri", REDIRECT_URI)] with
  | (inl exc, log') => (inl (Request exc), log')
  | (inr r, log') =>
      match raise_for_status r with
      | Some exc => (inl (Request exc), log')
      | None =>
          match json r with
          | None => (inl (Python JSONDecodeError), log')
          | Some data => (subscript data "code", log')
          end
      end
  end.

(** [_exchange_for_access_token], for a request token that is a string. *)
Definition _exchange_for_access_token (srv : server) (log : list form)
    (request_token : string) : (error + pyval) * list form :=
  match _post srv log [("consumer_key", CONSUMER_KEY); ("code", request_token)] with
  | (inl exc, log') => (inl (Request exc), log')
  | (inr r, log') =>
      match raise_for_status r with
      | Some exc => (inl (Request exc), log')
      | None =>
          match json r with
          | None => (inl (Python JSONDecodeError), log')
          | Some data => (subscript data "access_token", log')
          end
      end
  end.

(** ** The extraction loop of [main] *)

(** Truth value of a Python object. *)
Definition truthy (v : pyval) : bool :=
  match v with
  | PNone => false
  | PBool b => b
  | PInt z => negb (z =? 0)
  | PStr s => negb (String.eqb s "")
  | PList l => match l with [] => false | _ => true end
  | PDict d => match d with [] => false | _ => true end
  end.

(** [d[key] = v]: the value of an existing key is replaced in place, a new
    key goes to the end. *)
Fixpoint dict_set (key : string) (v : pyval) (d : list (string * pyval))
  : list (string * pyval) :=
  match d with
  | [] => [(key, v)]
  | (k, x) :: rest =>
      if String.eqb k key then (k, v) :: rest else (k, x) :: dict_set key v rest
  end.

(** [if args.limit: items = items[: args.limit]], where [args.limit] is
    [None] or an integer: a slice with a negative stop counts from the
    end. *)
Definition limit_items (limit : option Z) (items : list pyval) : list pyval :=
  match limit with
  | None => items
  | Some z =>
      if z =? 0 then items
      else if 0 <? z then firstn (Z.to_nat z) items
      else firstn (Z.to_nat (Z.of_nat (List.length items) + z)) items
  end.

(** The entries of [failures], before they are formatted. *)
Inductive failure : Type :=
| NoURL (item_id : pyval)
| ExtractFailed (url : pyval).

(** [itm.get("resolved_url") or itm.get("given_url")] on a dictionary. *)
Definition url_of (d : list (string * pyval)) : pyval :=
  let resolved := match field "resolved_url" d with Some v => v | None => PNone end in
  if truthy resolved then resolved
  else match field "given_url" d with Some v => v | None => PNone end.

(** The [for] loop of [main] over the items.  [extract i url] stands for the
    call of [extract_article] made for the item at position [i]: the two
    texts it returns, or [None] when it raises. *)
Fixpoint extract_all (extract : nat -> pyval -> option (string * string)) (i : nat)
    (items enriched : list pyval) (failures : list failure)
  : error + (list pyval * list failure) :=
  match items with
  | [] => inr (enriched, failures)
  | PDict d :: rest =>
      let url := url_of d in
      if truthy url then
        match extract i url with
        | Some (html, text) =>
            let itm := PDict (dict_set "content_text" (PStr text)
                                (dict_set "content_html" (PStr html) d)) in
            extract_all extract (S i) rest (enriched ++ [itm]) failures
        | None => extract_all extract (S i) rest enriched (failures ++ [ExtractFailed url])
        end
      else
        match field "item_id" d with
        | Some id => extract_all extract (S i) rest enriched (failures ++ [NoURL id])
        | None => inl (KeyError "item_id")
        end
  | _ :: _ => inl (Python AttributeError)
  end.

(** An item the loop can always handle: a dictionary with an [item_id]. *)
Definition identified (itm : pyval) : Prop :=
  exists d, itm = PDict d /\ field "item_id" d <> None.

(** An item ready for the output: a dictionary with both texts. *)
Definition has_content (itm : pyval) : Prop :=
  exists d html text,
    itm = PDict d
    /\ field "content_html" d = Some (PStr html)
    /\ field "content_text" d = Some (PStr text).

(** Every character of a string passes a test. *)
Fixpoint every (f : ascii -> bool) (s : string) : bool :=
  match s with
  | EmptyString => true
  | String c r => f c && every f r
  end.

(** A string given by its bytes. *)
Definition text_of_bytes (l : list Z) : string :=
  string_of_list_ascii (map (fun b => ascii_of_N (Z.to_N b)) l).

(** A character [int] keeps as it is. *)
Definition is_plain (c : ascii) : bool := (N_of_ascii c <? 127)%N.

(** The characters a text [int] accepts may be made of. *)
Definition is_numeric (c : ascii) : bool :=
  is_digit c || is_space c || Ascii.eqb c "+" || Ascii.eqb c "-" || Ascii.eqb c "_".

Definition is_group_char (c : ascii) : bool := is_digit c || Ascii.eqb c "_".

(** A byte a text [int] accepts may hold: a byte of a character past ASCII,
    or an ASCII digit, whitespace, sign or underscore. *)
Definition may_be_numeric (c : ascii) : bool :=
  negb (N_of_ascii c <? 128)%N || is_numeric c.

(** An ASCII code point that is no digit, whitespace, sign or underscore. *)
Definition junk_code (cp : N) : bool :=
  (cp <? 128)%N && negb (is_numeric (ascii_of_N cp)).

(** * Properties *)

Example py_str_65 : py_str 65 = "65".
Proof. reflexivity. Qed.

Example py_str_neg : py_str (-120) = "-120".
Proof. reflexivity. Qed.

Example py_int_padded : py_int " 1_000 " = Some 1000.
Proof. reflexivity. Qed.

Example py_int_rejects :
  py_int "12a" = None /\ py_int "" = None /\ py_int "1__0" = None /\ py_int "- 1" = None.
Proof. repeat split; reflexivity. Qed.

(** Past ASCII: the Arabic-Indic digit three, the fullwidth digits six and
    zero, and a no-break space before [60]. *)
Example py_int_unicode :
  py_int (text_of_bytes [217; 163]) = Some 3
  /\ py_int (text_of_bytes [239; 188; 150; 239; 188; 144]) = Some 60
  /\ py_int (text_of_bytes [194; 160; 54; 48]) = Some 60.
Proof. repeat split; reflexivity. Qed.

(** The separators from 28 to 31 are no whitespace to [int], and neither are
    bytes that are no UTF-8. *)
Example py_int_separators :
  py_int (text_of_bytes [28; 54; 48]) = None
  /\ py_int (text_of_bytes [54; 48; 31]) = None
  /\ py_int (text_of_bytes [54; 48; 160]) = None.
Proof. repeat split; reflexivity. Qed.


(** ** [int] undoes [str] *)

Section Decimal.

Lemma digit_not_space c : is_digit c = true -> is_space c = false.
Proof.
  destruct c as [[|] [|] [|] [|] [|] [|] [|] [|]]; vm_compute; congruence.
Qed.

Lemma digit_not_sign c :
  is_digit c = true ->
  Ascii.eqb c "-" = false /\ Ascii.eqb c "+" = false /\ Ascii.eqb c "_" = false.
Proof.
  destruct c as [[|] [|] [|] [|] [|] [|] [|] [|]]; vm_compute; intuition congruence.
Qed.

Lemma digits_of_uint d : digits_only (NilEmpty.string_of_uint d) = true.
Proof. induction d; simpl; auto. Qed.

Lemma rstrip_digits s : digits_only s = true -> rstrip s = s.
Proof.
  induction s as [|c r IH]; simpl; [reflexivity|].
  intros H. apply andb_prop in H. destruct H as [Hc Hr].
  rewrite (IH Hr). destruct r; [|reflexivity].
  now rewrite (digit_not_space c Hc).
Qed.

Lemma strip_digits s : digits_only s = true -> strip s = s.
Proof.
  intros H. unfold strip.
  destruct s as [|c r]; [reflexivity|]. simpl lstrip.
  pose proof H as H'. simpl in H'. apply andb_prop in H'.
  rewrite (digit_not_space c (proj1 H')). now apply rstrip_digits.
Qed.

Lemma digit_groups_digits s :
  digits_only s = true -> digit_groups SeenDigit s = Some s.
Proof.
  induction s as [|c r IH]; simpl; [reflexivity|].
  intros H. apply andb_prop in H. destruct H as [Hc Hr].
  now rewrite Hc, (IH Hr).
Qed.

Lemma digit_groups_start s :
  s <> EmptyString -> digits_only s = true -> digit_groups SeenNothing s = Some s.
Proof.
  destruct s as [|c r]; [congruence|]. intros _ H. simpl in H.
  apply andb_prop in H. destruct H as [Hc Hr].
  simpl. now rewrite Hc, (digit_groups_digits r Hr).
Qed.

Lemma string_of_uint_nonempty d : d <> Nil -> NilEmpty.string_of_uint d <> EmptyString.
Proof. destruct d; simpl; congruence. Qed.

Lemma unsigned_literal_of_uint d :
  d <> Nil ->
  unsigned_literal (NilEmpty.string_of_uint d) = Some (Z.of_uint d).
Proof.
  intros Hd. unfold unsigned_literal.
  rewrite (digit_groups_start _ (string_of_uint_nonempty d Hd) (digits_of_uint d)).
  now rewrite (NilEmpty.usu d).
Qed.

Lemma int_of_ascii_of_uint d :
  d <> Nil ->
  int_of_ascii (NilEmpty.string_of_uint d) = Some (Z.of_uint d)
  /\ int_of_ascii (String "-" (NilEmpty.string_of_uint d)) = Some (- Z.of_uint d).
Proof.
  intros Hd. pose proof (unsigned_literal_of_uint d Hd) as Hlit.
  pose proof (digits_of_uint d) as Hall.
  unfold int_of_ascii. split.
  - rewrite (strip_digits _ Hall).
    destruct (NilEmpty.string_of_uint d) as [|c r] eqn:E.
    + destruct d; simpl in E; congruence.
    + simpl in Hall. apply andb_prop in Hall.
      destruct (digit_not_sign c (proj1 Hall)) as (-> & -> & _). exact Hlit.
  - unfold strip. simpl lstrip. simpl rstrip. rewrite (rstrip_digits _ Hall).
    destruct (NilEmpty.string_of_uint d) as [|c r] eqn:E.
    + destruct d; simpl in E; congruence.
    + simpl Ascii.eqb. now rewrite Hlit.
Qed.

Lemma py_str_digits z :
  exists d, d <> Nil
    /\ (py_str z = NilEmpty.string_of_uint d /\ z = Z.of_uint d
        \/ py_str z = String "-" (NilEmpty.string_of_uint d) /\ z = - Z.of_uint d).
Proof.
  unfold py_str. destruct z as [|p|p].
  - exists (D0 Nil). split; [discriminate|]. left. split; reflexivity.
  - exists (Pos.to_uint p). pose proof (DecimalPos.Unsigned.to_uint_nonnil p) as Hn.
    split; [assumption|]. left. split.
    + simpl. destruct (Pos.to_uint p); congruence || reflexivity.
    + symmetry. exact (DecimalZ.of_to (Z.pos p)).
  - exists (Pos.to_uint p). pose proof (DecimalPos.Unsigned.to_uint_nonnil p) as Hn.
    split; [assumption|]. right. split.
    + simpl. f_equal. destruct (Pos.to_uint p); congruence || reflexivity.
    + symmetry. exact (DecimalZ.of_to (Z.neg p)).
Qed.

Lemma int_of_ascii_py_str z : int_of_ascii (py_str z) = Some z.
Proof.
  destruct (py_str_digits z) as (d & Hn & [[-> ->]|[-> ->]]).
  - exact (proj1 (int_of_ascii_of_uint d Hn)).
  - exact (proj2 (int_of_ascii_of_uint d Hn)).
Qed.

(** A text whose characters are all below 127 is read as it stands. *)
Lemma plain_text_kept s :
  every is_plain s = true ->
  exists cps, utf8_decode s = Some cps /\ to_ascii cps = Some s.
Proof.
  induction s as [|c r IH]; simpl; [exists []; auto|].
  intros H. apply andb_prop in H. destruct H as [Hc Hr].
  destruct (IH Hr) as (cps & Hdec & Hasc). unfold is_plain in Hc.
  assert (Hlt : (N_of_ascii c <? 128)%N = true)
    by (apply N.ltb_lt; apply N.ltb_lt in Hc; lia).
  rewrite Hlt, Hdec. simpl. exists (N_of_ascii c :: cps). split; [reflexivity|].
  simpl. now rewrite Hc, Hasc, ascii_N_embedding.
Qed.

Lemma py_int_plain s : every is_plain s = true -> py_int s = int_of_ascii s.
Proof.
  intros H. destruct (plain_text_kept s H) as (cps & Hdec & Hasc).
  unfold py_int. now rewrite Hdec, Hasc.
Qed.

Lemma digit_plain c : is_digit c = true -> is_plain c = true.
Proof.
  destruct c as [[|] [|] [|] [|] [|] [|] [|] [|]]; vm_compute; congruence.
Qed.

Lemma space_plain c : is_space c = true -> is_plain c = true.
Proof.
  destruct c as [[|] [|] [|] [|] [|] [|] [|] [|]]; vm_compute; congruence.
Qed.

Lemma every_implies (f g : ascii -> bool) s :
  (forall c, f c = true -> g c = true) -> every f s = true -> every g s = true.
Proof.
  intros Hfg. induction s as [|c r IH]; simpl; [reflexivity|].
  intros H. apply andb_prop in H. destruct H as [Hc Hr]. now rewrite (Hfg c Hc), IH.
Qed.

Lemma digits_only_every s : digits_only s = every is_digit s.
Proof. induction s as [|c r IH]; simpl; congruence. Qed.

Lemma py_str_plain z : every is_plain (py_str z) = true.
Proof.
  destruct (py_str_digits z) as (d & _ & [[-> _]|[-> _]]); [|simpl];
    apply (every_implies is_digit _ _ digit_plain);
    rewrite <- digits_only_every; apply digits_of_uint.
Qed.

Lemma py_int_py_str z : py_int (py_str z) = Some z.
Proof. rewrite (py_int_plain _ (py_str_plain z)). apply int_of_ascii_py_str. Qed.

End Decimal.

(** ** One pass through the loop *)

Section Pass.

Variable srv : server.
Variable access_token : string.

Lemma send_log retries : forall log p,
  exists k, snd (send retries srv log p) = log ++ repeat p (S k).
Proof.
  induction retries as [|n IH]; intros log p; simpl.
  - destruct (srv (List.length log) p) as [|r|r h];
      [|destruct (forced (status_code r))
       |destruct (forced (status_code r) || waits (status_code r) h)];
      exists O; reflexivity.
  - assert (Hagain : exists k, snd (send n srv (log ++ [p]) p) = log ++ repeat p (S k)).
    { destruct (IH (log ++ [p]) p) as [k Hk]. exists (S k).
      rewrite Hk, <- app_assoc. reflexivity. }
    destruct (srv (List.length log) p) as [|r|r h].
    + exact Hagain.
    + destruct (forced (status_code r)); [exact Hagain|exists O; reflexivity].
    + destruct (forced (status_code r) || waits (status_code r) h);
        [|exists O; reflexivity].
      destruct h; [exists O; reflexivity|exists O; reflexivity|exact Hagain].
Qed.

Lemma try_post_log log p :
  exists k, snd (try_post srv log p) = log ++ repeat p (S k).
Proof.
  destruct (send_log retry_total log p) as [k Hk]. exists k.
  unfold try_post, _post. destruct (send retry_total srv log p) as [[exc|r] log'];
    simpl in *; [assumption|]. destruct (raise_for_status r); assumption.
Qed.

(** A pass whose request fails inside the [try] block. *)
Lemma loop_body_hiccup st exc log :
  try_post srv (sent st) (payload access_token (batch_size st) (offset st)) = (inl exc, log) ->
  loop_body srv access_token st =
  Continue {| batch_size := batch_size st; offset := offset st;
              all_items := all_items st; checkpoint := checkpoint st;
              sent := log;
              stdout := stdout st ++ [HiccupNotice (offset st) exc];
              naps := S (naps st) |}.
Proof. intros H. unfold loop_body. now rewrite H. Qed.

(** A pass that receives an empty page. *)
Lemma loop_body_empty st r log data :
  try_post srv (sent st) (payload access_token (batch_size st) (offset st)) = (inr r, log) ->
  json r = Some data ->
  batch_of data = Ok [] ->
  loop_body srv access_token st =
  Break {| batch_size := batch_size st; offset := offset st;
           all_items := all_items st; checkpoint := checkpoint st;
           sent := log; stdout := stdout st; naps := naps st |}.
Proof. intros H Hj Hb. unfold loop_body. now rewrite H, Hj, Hb. Qed.

(** A pass that receives a page with items in it. *)
Lemma loop_body_page st r log data batch :
  try_post srv (sent st) (payload access_token (batch_size st) (offset st)) = (inr r, log) ->
  json r = Some data ->
  batch_of data = Ok batch ->
  batch <> [] ->
  let offset' := offset st + Z.of_nat (List.length batch) in
  let st2 := {| batch_size := batch_size st; offset := offset';
                all_items := all_items st ++ batch;
                checkpoint := _write_checkpoint offset' (checkpoint st);
                sent := log; stdout := stdout st; naps := naps st |} in
  loop_body srv access_token st =
  match total_of data offset' with
  | Raise e => Throw e st2
  | Ok total_available =>
      if offset' >=? total_available then Break st2 else Continue st2
  end.
Proof.
  intros H Hj Hb Hne. unfold loop_body. rewrite H, Hj, Hb.
  destruct batch; [congruence|reflexivity].
Qed.

Lemma advances_intro st st' k batch notes :
  batch_size st' = batch_size st ->
  sent st' = sent st ++ repeat (payload access_token (batch_size st) (offset st)) (S k) ->
  all_items st' = all_items st ++ batch ->
  offset st' = offset st + Z.of_nat (List.length batch) ->
  (batch = [] /\ checkpoint st' = checkpoint st
   \/ batch <> [] /\ checkpoint st' = Some (py_str (offset st'))) ->
  stdout st' = stdout st ++ notes ->
  filter is_cap_notice notes = [] ->
  advances access_token st st'.
Proof.
  intros Hb Hs Hi Ho Hc Hn Hf. unfold advances.
  split; [exact Hb|]. split; [now exists k|].
  split; [exists batch; auto|]. exists notes; auto.
Qed.

Lemma loop_body_advances st :
  match loop_body srv access_token st with
  | Continue st' | Break st' | Throw _ st' => advances access_token st st'
  end.
Proof.
  pose proof (try_post_log (sent st) (payload access_token (batch_size st) (offset st))) as [k Hk].
  destruct (try_post srv (sent st) (payload access_token (batch_size st) (offset st)))
    as [[exc|r] log] eqn:Hpost; simpl in Hk.
  - rewrite (loop_body_hiccup st exc log Hpost).
    apply (advances_intro _ _ k [] [HiccupNotice (offset st) exc]); simpl;
      auto using app_nil_r; lia.
  - assert (Hsame : advances access_token st
              {| batch_size := batch_size st; offset := offset st;
                 all_items := all_items st; checkpoint := checkpoint st;
                 sent := log; stdout := stdout st; naps := naps st |}).
    { apply (advances_intro _ _ k [] []); simpl; auto using app_nil_r; lia. }
    destruct (json r) as [data|] eqn:Hj.
    + destruct (batch_of data) as [batch|e] eqn:Hb.
      * destruct batch as [|x batch].
        -- now rewrite (loop_body_empty st r log data Hpost Hj Hb).
        -- rewrite (loop_body_page st r log data (x :: batch) Hpost Hj Hb) by congruence.
           cbv zeta.
           assert (Hmerged : advances access_token st
              {| batch_size := batch_size st;
                 offset := offset st + Z.of_nat (List.length (x :: batch));
                 all_items := all_items st ++ x :: batch;
                 checkpoint := _write_checkpoint
                                 (offset st + Z.of_nat (List.length (x :: batch)))
                                 (checkpoint st);
                 sent := log; stdout := stdout st; naps := naps st |}).
           { apply (advances_intro _ _ k (x :: batch) []);
               cbn [batch_size sent all_items offset checkpoint stdout filter];
               auto using app_nil_r.
             right. split; [congruence|reflexivity]. }
           destruct (total_of data _) as [t|e]; [|assumption].
           destruct (_ >=? t); assumption.
      * unfold loop_body. now rewrite Hpost, Hj, Hb.
    + unfold loop_body. now rewrite Hpost, Hj.
Qed.

End Pass.

(** ** Whole runs *)

Section Run.

Variable srv : server.
Variable access_token : string.

Lemma while_true_more k : forall st0 st m,
  while_true k srv access_token st0 = Running st ->
  while_true (k + m) srv access_token st0 = while_true m srv access_token st.
Proof.
  induction k as [|k IH]; intros st0 st m H; simpl in *.
  - now inversion H.
  - destruct (loop_body srv access_token st0) as [st1|st1|e st1];
      [now apply IH | discriminate | discriminate].
Qed.

(** A property kept by every pass holds wherever a run stands; for a run that
    returned it holds of the state the loop was left in. *)
Lemma while_true_invariant (P : state -> Prop) :
  (forall st st', P st -> advances access_token st st' -> P st') ->
  forall fuel st, P st ->
  match while_true fuel srv access_token st with
  | Running st' | Raised _ st' => P st'
  | Returned items st' => exists st0, P st0 /\ finish st0 = Returned items st'
  end.
Proof.
  intros Hstep. induction fuel as [|fuel IH]; intros st HP; simpl; [assumption|].
  pose proof (loop_body_advances srv access_token st) as Hadv.
  destruct (loop_body srv access_token st) as [st1|st1|e st1].
  - apply IH. eauto.
  - exists st1. split; [eauto|reflexivity].
  - eauto.
Qed.

End Run.

Lemma payload_offset access_token b o :
  field "offset" (payload access_token b o) = Some (py_str o).
Proof. reflexivity. Qed.

Lemma payload_count access_token b o :
  field "count" (payload access_token b o) = Some (py_str b).
Proof. reflexivity. Qed.

Lemma py_str_inj a b : py_str a = py_str b -> a = b.
Proof.
  intros H. pose proof (py_int_py_str a) as Ha. rewrite H, py_int_py_str in Ha.
  congruence.
Qed.

Lemma Forall_repeat {A : Type} (P : A -> Prop) (x : A) n : P x -> Forall P (repeat x n).
Proof. intros H. induction n; simpl; auto. Qed.

Lemma bookkeeping_start b f : bookkeeping (_read_checkpoint f) (start b f).
Proof.
  unfold bookkeeping, start; simpl. repeat split; [lia | constructor].
Qed.

Lemma bookkeeping_kept access_token O st st' :
  bookkeeping O st -> advances access_token st st' -> bookkeeping O st'.
Proof.
  intros (Hck & Hlen & Hreq) (_ & [k Hsent] & (batch & Hitems & Hoff & Hfile) & _).
  unfold bookkeeping. repeat split.
  - destruct Hfile as [[-> Hsame] | [_ Hnew]].
    + rewrite Hsame, Hck, Hoff. simpl. lia.
    + rewrite Hnew. unfold _read_checkpoint. now rewrite py_int_py_str.
  - rewrite Hitems, Hoff, length_app. lia.
  - rewrite Hsent. apply Forall_app. split; [|apply Forall_repeat].
    + eapply Forall_impl; [|exact Hreq]. intros p (o & Ho & Hle). exists o. split; [assumption|lia].
    + exists (offset st). split; [apply payload_offset|lia].
Qed.

Lemma finish_state st items st' :
  finish st = Returned items st' ->
  items = all_items st /\ checkpoint st' = None /\ offset st' = offset st
  /\ all_items st' = all_items st /\ sent st' = sent st
  /\ stdout st' = stdout st /\ batch_size st' = batch_size st.
Proof. unfold finish. intros H. inversion H; subst; simpl. repeat split. Qed.

(** Where a run from [start] stands, its bookkeeping is in order; after a
    return it is the bookkeeping of the state the loop was left in. *)
Lemma run_bookkeeping fuel srv f access_token b :
  match fetch_pocket_items fuel srv f access_token b with
  | Running st | Raised _ st => bookkeeping (_read_checkpoint f) st
  | Returned items st =>
      exists st0, bookkeeping (_read_checkpoint f) st0 /\ finish st0 = Returned items st
  end.
Proof.
  unfold fetch_pocket_items.
  apply (while_true_invariant srv access_token (bookkeeping (_read_checkpoint f))).
  - intros st st'. apply bookkeeping_kept.
  - apply bookkeeping_start.
Qed.

Lemma resume_bookkeeping_aux fuel srv f access_token b :
  let st' := state_of (fetch_pocket_items fuel srv f access_token b) in
  Z.of_nat (List.length (all_items st')) = offset st' - offset (start b f)
  /\ offset (start b f) <= offset st'.
Proof.
  intros st'. subst st'. change (offset (start b f)) with (_read_checkpoint f).
  pose proof (run_bookkeeping fuel srv f access_token b) as H.
  destruct (fetch_pocket_items fuel srv f access_token b) as [items st'|e st'|st'];
    simpl state_of.
  - destruct H as (st0 & (_ & Hlen & _) & Hfin).
    apply finish_state in Hfin. destruct Hfin as (_ & _ & -> & -> & _). lia.
  - destruct H as (_ & Hlen & _). lia.
  - destruct H as (_ & Hlen & _). lia.
Qed.

(** ** The checkpoint store *)

(** C8. Checkpoint round trip: after [_write_checkpoint o] for an offset
    [o >= 0] the file holds exactly the decimal text of [o] and
    [_read_checkpoint] gives [o] back; [_read_checkpoint] gives [0], and raises
    nothing, when the file is absent or holds a text [int] rejects. *)
Theorem checkpoint_round_trip (o : Z) (f : checkpoint_file) (text : string) :
  (0 <= o ->
   _write_checkpoint o f = Some (py_str o)
   /\ _read_checkpoint (_write_checkpoint o f) = o)
  /\ _read_checkpoint None = 0
  /\ (py_int text = None -> _read_checkpoint (Some text) = 0).
Proof.
  split; [|split].
  - intros _. split; [reflexivity|].
    unfold _write_checkpoint, _read_checkpoint. now rewrite py_int_py_str.
  - reflexivity.
  - intros H. unfold _read_checkpoint. now rewrite H.
Qed.

Lemma checkpoint_round_trip_witness :
  _write_checkpoint 65 (Some "30") = Some "65"
  /\ _read_checkpoint (_write_checkpoint 65 (Some "30")) = 65
  /\ _read_checkpoint (Some "sixty-five") = 0.
Proof.
  pose proof (checkpoint_round_trip 65 (Some "30") "sixty-five") as (Hw & _ & Hbad).
  destruct Hw as [Hfile Hread]; [lia|].
  split; [exact Hfile|]. split; [exact Hread|]. apply Hbad. reflexivity.
Defined.

(** ** Resuming *)

(** C4. Resume: with [O] the offset read from the checkpoint when the run
    starts, every request sent during the run asks for an offset of at least
    [O], so none asks for an offset below [O]; the accumulated collection
    starts empty and holds only what this run fetched, [offset - O] items. *)
Theorem resume_from_checkpoint (fuel : nat) (srv : server) (f : checkpoint_file)
    (access_token : string) (b : Z) :
  let O := _read_checkpoint f in
  let st := state_of (fetch_pocket_items fuel srv f access_token b) in
  offset (start b f) = O
  /\ all_items (start b f) = []
  /\ requests_from O (sent st)
  /\ (forall p o, In p (sent st) -> field "offset" p = Some (py_str o) -> ~ o < O)
  /\ Z.of_nat (List.length (all_items st)) = offset st - O.
Proof.
  intros O st.
  assert (Hbk : Z.of_nat (List.length (all_items st)) = offset st - O
                /\ requests_from O (sent st)).
  { subst st. pose proof (run_bookkeeping fuel srv f access_token b) as H.
    destruct (fetch_pocket_items fuel srv f access_token b) as [items st'|e st'|st'];
      simpl.
    - destruct H as (st0 & (_ & Hlen & Hreq) & Hfin).
      apply finish_state in Hfin. destruct Hfin as (_ & _ & -> & -> & -> & _).
      auto.
    - destruct H as (_ & Hlen & Hreq). auto.
    - destruct H as (_ & Hlen & Hreq). auto. }
  destruct Hbk as [Hlen Hreq].
  repeat split; try assumption.
  intros p o Hin Hfield Hlt.
  unfold requests_from in Hreq. rewrite Forall_forall in Hreq.
  destruct (Hreq p Hin) as (o' & Ho' & Hle).
  rewrite Hfield in Ho'. inversion Ho' as [Heq]. apply py_str_inj in Heq. lia.
Qed.

(** ** The offset invariant *)

(** What a pass that received a page leaves behind, whichever way it ends. *)
Lemma loop_body_received srv access_token st r log data batch :
  try_post srv (sent st) (payload access_token (batch_size st) (offset st)) = (inr r, log) ->
  json r = Some data ->
  batch_of data = Ok batch ->
  match loop_body srv access_token st with
  | Continue st' | Break st' | Throw _ st' =>
      all_items st' = all_items st ++ batch
      /\ offset st' = offset st + Z.of_nat (List.length batch)
      /\ (batch <> [] -> checkpoint st' = _write_checkpoint (offset st') (checkpoint st))
      /\ (batch = [] -> checkpoint st' = checkpoint st)
  end.
Proof.
  intros Hpost Hj Hb. destruct batch as [|x batch].
  - rewrite (loop_body_empty srv access_token st r log data Hpost Hj Hb).
    cbn [all_items offset checkpoint List.length]. rewrite app_nil_r.
    repeat split; [lia|congruence].
  - rewrite (loop_body_page srv access_token st r log data (x :: batch) Hpost Hj Hb)
      by congruence.
    cbv zeta.
    destruct (total_of data _) as [t|e]; [destruct (_ >=? t)|];
      cbn [all_items offset checkpoint]; repeat split; congruence.
Qed.

(** Every pass moves the offset and the number of items by the same amount,
    and never backwards. *)
Lemma loop_body_in_step srv access_token st :
  match loop_body srv access_token st with
  | Continue st' | Break st' | Throw _ st' =>
      offset st <= offset st'
      /\ Z.of_nat (List.length (all_items st')) - Z.of_nat (List.length (all_items st))
         = offset st' - offset st
  end.
Proof.
  pose proof (loop_body_advances srv access_token st) as H.
  assert (Hgen : forall st', advances access_token st st' ->
            offset st <= offset st'
            /\ Z.of_nat (List.length (all_items st')) - Z.of_nat (List.length (all_items st))
               = offset st' - offset st).
  { intros st' (_ & _ & (batch & Hi & Ho & _) & _). rewrite Hi, Ho, length_app. lia. }
  destruct (loop_body srv access_token st); auto.
Qed.

(** A run that left the loop stays where it is. *)
Lemma while_true_settled srv access_token k : forall st0 m,
  (forall st, while_true k srv access_token st0 <> Running st) ->
  while_true (k + m) srv access_token st0 = while_true k srv access_token st0.
Proof.
  induction k as [|k IH]; intros st0 m H; simpl in *.
  - exfalso. now apply (H st0).
  - destruct (loop_body srv access_token st0) as [st1|st1|e st1];
      [now apply IH | reflexivity | reflexivity].
Qed.

(** The offset of a run never goes back. *)
Lemma offset_never_decreases srv access_token k m st0 :
  offset (state_of (while_true k srv access_token st0))
  <= offset (state_of (while_true (k + m) srv access_token st0)).
Proof.
  destruct (while_true k srv access_token st0) as [items st|e st|st] eqn:E.
  - rewrite while_true_settled, E; [lia|]. rewrite E. discriminate.
  - rewrite while_true_settled, E; [lia|]. rewrite E. discriminate.
  - rewrite (while_true_more srv access_token k st0 st m E). cbn [state_of].
    assert (Hstep : forall s s', offset st <= offset s -> advances access_token s s' ->
              offset st <= offset s').
    { intros s s' Hs (_ & _ & (batch & _ & Ho & _) & _). lia. }
    pose proof (while_true_invariant srv access_token (fun s => offset st <= offset s)
                  Hstep m st (Z.le_refl _)) as H.
    cbv beta in H.
    destruct (while_true m srv access_token st) as [items st'|e st'|st']; cbn [state_of].
    + destruct H as (s & Hs & Hfin). apply finish_state in Hfin.
      destruct Hfin as (_ & _ & -> & _). exact Hs.
    + exact H.
    + exact H.
Qed.

(** C6. A pass of the loop that received a page leaves the accumulated items
    extended by exactly that page and the offset advanced by the number of
    its items, whichever way the pass ends; the checkpoint is rewritten with
    the new offset when the page is not empty and left alone when it is.  A
    pass whose request failed goes round the loop with items, offset and
    checkpoint untouched.  In every pass the offset and the number of
    accumulated items move by the same amount, and the offset does not
    decrease.  Wherever a run stands, the number of accumulated items is the
    offset minus the offset at the start of the run, and the offset is at
    least what it was after fewer passes. *)
Theorem offset_invariant (fuel more : nat) (srv : server) (f : checkpoint_file)
    (access_token : string) (b : Z) (st : state)
    (r : response) (log : list form) (data : pyval) (batch : list pyval)
    (exc : request_exception) :
  (try_post srv (sent st) (payload access_token (batch_size st) (offset st)) = (inr r, log) ->
   json r = Some data ->
   batch_of data = Ok batch ->
   match loop_body srv access_token st with
   | Continue st' | Break st' | Throw _ st' =>
       all_items st' = all_items st ++ batch
       /\ offset st' = offset st + Z.of_nat (List.length batch)
       /\ offset st <= offset st'
       /\ (batch <> [] -> checkpoint st' = _write_checkpoint (offset st') (checkpoint st))
       /\ (batch = [] -> checkpoint st' = checkpoint st)
   end)
  /\ (try_post srv (sent st) (payload access_token (batch_size st) (offset st)) = (inl exc, log) ->
      exists st',
        loop_body srv access_token st = Continue st'
        /\ all_items st' = all_items st
        /\ offset st' = offset st
        /\ checkpoint st' = checkpoint st)
  /\ match loop_body srv access_token st with
     | Continue st' | Break st' | Throw _ st' =>
         offset st <= offset st'
         /\ Z.of_nat (List.length (all_items st')) - Z.of_nat (List.length (all_items st))
            = offset st' - offset st
     end
  /\ let st' := state_of (fetch_pocket_items fuel srv f access_token b) in
     let st'' := state_of (fetch_pocket_items (fuel + more) srv f access_token b) in
     Z.of_nat (List.length (all_items st')) = offset st' - offset (start b f)
     /\ offset (start b f) <= offset st'
     /\ offset st' <= offset st''.
Proof.
  split; [|split; [|split]].
  - intros Hpost Hj Hb.
    pose proof (loop_body_received srv access_token st r log data batch Hpost Hj Hb) as H.
    destruct (loop_body srv access_token st) as [st'|st'|e st'];
      destruct H as (Hi & Ho & Hc & Hc'); repeat split; try assumption; lia.
  - intros Hpost. rewrite (loop_body_hiccup srv access_token st exc log Hpost).
    eexists. split; [reflexivity|]. repeat split.
  - apply loop_body_in_step.
  - cbv zeta.
    destruct (resume_bookkeeping_aux fuel srv f access_token b) as [Hlen Hle].
    split; [exact Hlen|]. split; [exact Hle|].
    apply offset_never_decreases.
Qed.

Lemma offset_invariant_witness :
  match loop_body (remote (numbered 65)) "token" (start 30 None) with
  | Continue st' | Break st' | Throw _ st' =>
      all_items st' = map snd (firstn 30 (numbered 65))
      /\ offset st' = 30
      /\ checkpoint st' = Some "30"
  end
  /\ exists st',
       loop_body (always 404) "token" (start 30 (Some "30")) = Continue st'
       /\ all_items st' = []
       /\ offset st' = 30
       /\ checkpoint st' = Some "30".
Proof.
  split.
  - destruct (offset_invariant 0 0 (remote (numbered 65)) None "token" 30 (start 30 None)
                (page_of (numbered 65) 30 0) [payload "token" 30 0]
                (PDict [ ("list", PDict (firstn 30 (numbered 65)));
                         ("total", PInt 65) ])
                (map snd (firstn 30 (numbered 65))) ConnectionError) as (Hpage & _).
    specialize (Hpage eq_refl eq_refl eq_refl). revert Hpage.
    destruct (loop_body (remote (numbered 65)) "token" (start 30 None)) as [st'|st'|e st'];
      intros (Hi & Ho & _ & Hc & _);
      (split; [exact Hi|]; split; [exact Ho|]; rewrite Hc, Ho; [reflexivity|discriminate]).
  - destruct (offset_invariant 0 0 (always 404) (Some "30") "token" 30 (start 30 (Some "30"))
                {| status_code := 404; json := None |} [payload "token" 30 30]
                PNone [] (HTTPError 404)) as (_ & Hfailed & _).
    exact (Hfailed eq_refl).
Defined.

(** ** Clamping *)

Lemma clamped_kept access_token b st st' :
  batch_size st = MAX_BATCH
  /\ requests_of_size MAX_BATCH (sent st)
  /\ filter is_cap_notice (stdout st) = [BatchCapNotice b] ->
  advances access_token st st' ->
  batch_size st' = MAX_BATCH
  /\ requests_of_size MAX_BATCH (sent st')
  /\ filter is_cap_notice (stdout st') = [BatchCapNotice b].
Proof.
  intros (Hb & Hreq & Hout) (Hsame & [k Hsent] & _ & (notes & Hnotes & Hnone)).
  split; [congruence|]. split.
  - unfold requests_of_size in *. rewrite Hsent. apply Forall_app.
    split; [assumption|]. apply Forall_repeat. rewrite payload_count. now rewrite Hb.
  - rewrite Hnotes, filter_app, Hout, Hnone. reflexivity.
Qed.

(** C9. Clamping: a requested batch size above 30 raises nothing: the loop is
    entered with a batch size of 30, every request of the run asks for 30
    items, and the lines printed hold exactly one notice about the cap,
    however many pages are fetched. *)
Theorem clamp_and_warn_once (fuel : nat) (srv : server) (f : checkpoint_file)
    (access_token : string) (b : Z) :
  MAX_BATCH < b ->
  fetch_pocket_items 0 srv f access_token b = Running (start b f)
  /\ batch_size (start b f) = 30
  /\ let st := state_of (fetch_pocket_items fuel srv f access_token b) in
     batch_size st = 30
     /\ requests_of_size 30 (sent st)
     /\ filter is_cap_notice (stdout st) = [BatchCapNotice b].
Proof.
  intros Hb.
  assert (Hcap : (b >? MAX_BATCH) = true) by (apply Z.gtb_lt; lia).
  assert (Hstart : batch_size (start b f) = MAX_BATCH
                   /\ requests_of_size MAX_BATCH (sent (start b f))
                   /\ filter is_cap_notice (stdout (start b f)) = [BatchCapNotice b]).
  { unfold start; simpl. rewrite Hcap. split; [reflexivity|]. split; [constructor|].
    simpl. destruct (_read_checkpoint f =? 0); reflexivity. }
  split; [reflexivity|]. split; [apply Hstart|].
  intros st. subst st. unfold fetch_pocket_items.
  pose proof (while_true_invariant srv access_token _
                (fun st st' => clamped_kept access_token b st st') fuel _ Hstart) as H.
  destruct (while_true fuel srv access_token (start b f)) as [items st|e st|st];
    simpl state_of; try exact H.
  destruct H as (st0 & H0 & Hfin). apply finish_state in Hfin.
  destruct Hfin as (_ & _ & _ & _ & -> & -> & ->). exact H0.
Qed.

Lemma clamp_and_warn_once_witness :
  let st := state_of (fetch_pocket_items 5 (remote (numbered 65)) None "token" 50) in
  batch_size st = 30
  /\ requests_of_size 30 (sent st)
  /\ filter is_cap_notice (stdout st) = [BatchCapNotice 50].
Proof.
  apply (clamp_and_warn_once 5 (remote (numbered 65)) None "token" 50).
  unfold MAX_BATCH. lia.
Defined.

(** ** Completion *)

Lemma returned_after_finish fuel srv access_token st0 items st :
  while_true fuel srv access_token st0 = Returned items st ->
  exists st1, finish st1 = Returned items st.
Proof.
  intros H.
  pose proof (while_true_invariant srv access_token (fun _ => True)
                (fun _ _ _ _ => I) fuel st0 I) as Hinv.
  rewrite H in Hinv. destruct Hinv as (st1 & _ & Hfin). now exists st1.
Qed.

(** C10. After a run that returned, the checkpoint file is gone, so the next
    [_read_checkpoint] gives [0]; unlinking a checkpoint that is already
    absent leaves it absent and raises nothing. *)
Theorem checkpoint_cleared_on_return (fuel : nat) (srv : server) (f : checkpoint_file)
    (access_token : string) (b : Z) (items : list pyval) (st : state) :
  fetch_pocket_items fuel srv f access_token b = Returned items st ->
  checkpoint st = None
  /\ _read_checkpoint (checkpoint st) = 0
  /\ unlink_missing_ok None = None.
Proof.
  intros H. apply returned_after_finish in H. destruct H as (st1 & Hfin).
  apply finish_state in Hfin. destruct Hfin as (_ & Hnone & _).
  rewrite Hnone. repeat split.
Qed.

Lemma checkpoint_cleared_on_return_witness :
  exists items st,
    fetch_pocket_items 3 (remote (numbered 65)) (Some "30") "token" 30 = Returned items st
    /\ List.length items = 35%nat
    /\ _read_checkpoint (checkpoint st) = 0.
Proof.
  destruct (fetch_pocket_items 3 (remote (numbered 65)) (Some "30") "token" 30)
    as [items st|e st|st] eqn:E.
  - exists items, st. split; [reflexivity|]. split.
    + vm_compute in E. inversion E. reflexivity.
    + exact (proj1 (proj2 (checkpoint_cleared_on_return 3 (remote (numbered 65))
                             (Some "30") "token" 30 items st E))).
  - vm_compute in E. discriminate E.
  - vm_compute in E. discriminate E.
Defined.

(** ** The empty page *)

(** C7. An empty page ends the run: whatever the state of the run and
    whatever the response says about the total (a total above the offset, no
    total, a total that is no number), a response whose item collection is
    empty makes the run return what it has accumulated and unlink the
    checkpoint; the total is not looked at. *)
Theorem empty_page_completes (fuel : nat) (srv : server) (access_token : string)
    (st : state) (r : response) (log : list form) (data : pyval) :
  try_post srv (sent st) (payload access_token (batch_size st) (offset st)) = (inr r, log) ->
  json r = Some data ->
  batch_of data = Ok [] ->
  exists st',
    while_true (S fuel) srv access_token st = Returned (all_items st) st'
    /\ checkpoint st' = None
    /\ offset st' = offset st
    /\ sent st' = log.
Proof.
  intros Hpost Hj Hb. simpl.
  rewrite (loop_body_empty srv access_token st r log data Hpost Hj Hb).
  unfold finish; simpl. eexists. repeat split.
Qed.

Lemma empty_page_completes_witness :
  let srv := answers 200 (Some (PDict [("list", PDict []); ("total", PInt 1000)])) in
  let srv' := answers 200 (Some (PDict [("total", PStr "many")])) in
  (exists st', fetch_pocket_items 1 srv (Some "30") "token" 30 = Returned [] st'
               /\ checkpoint st' = None /\ offset st' = 30)
  /\ (exists st', fetch_pocket_items 1 srv' (Some "30") "token" 30 = Returned [] st'
                  /\ checkpoint st' = None /\ offset st' = 30).
Proof.
  intros srv srv'. split.
  - destruct (empty_page_completes 0 srv "token" (start 30 (Some "30"))
                {| status_code := 200;
                   json := Some (PDict [("list", PDict []); ("total", PInt 1000)]) |}
                [payload "token" 30 30]
                (PDict [("list", PDict []); ("total", PInt 1000)])
                eq_refl eq_refl eq_refl) as (st' & Hrun & Hck & Hoff & _).
    exists st'. split; [exact Hrun|]. split; [exact Hck|]. exact Hoff.
  - destruct (empty_page_completes 0 srv' "token" (start 30 (Some "30"))
                {| status_code := 200; json := Some (PDict [("total", PStr "many")]) |}
                [payload "token" 30 30]
                (PDict [("total", PStr "many")])
                eq_refl eq_refl eq_refl) as (st' & Hrun & Hck & Hoff & _).
    exists st'. split; [exact Hrun|]. split; [exact Hck|]. exact Hoff.
Defined.

(** ** A response without a total *)

Section Reading.

Variable srv : server.
Variable access_token : string.

(** A response that [_post] hands back is one the remote end gave. *)
Lemma send_reply retries : forall log p r log',
  send retries srv log p = (inr r, log') -> exists i, response_of (srv i p) = Some r.
Proof.
  induction retries as [|n IH]; intros log p r log'; simpl.
  - destruct (srv (List.length log) p) as [|r0|r0 h] eqn:E; [discriminate| |].
    + destruct (forced (status_code r0)); intros H; inversion H; subst;
        exists (List.length log); now rewrite E.
    + destruct (forced (status_code r0) || waits (status_code r0) h);
        intros H; inversion H; subst; exists (List.length log); now rewrite E.
  - destruct (srv (List.length log) p) as [|r0|r0 h] eqn:E; [apply IH| |].
    + destruct (forced (status_code r0)); [apply IH|].
      intros H; inversion H; subst. exists (List.length log); now rewrite E.
    + destruct (forced (status_code r0) || waits (status_code r0) h).
      * destruct h; [discriminate|discriminate|apply IH].
      * intros H; inversion H; subst. exists (List.length log); now rewrite E.
Qed.

Lemma try_post_reply log p r log' :
  try_post srv log p = (inr r, log') ->
  (exists i, response_of (srv i p) = Some r) /\ raise_for_status r = None.
Proof.
  unfold try_post, _post.
  destruct (send retry_total srv log p) as [[exc|r0] l] eqn:E; [discriminate|].
  destruct (raise_for_status r0) eqn:Hs; [discriminate|].
  intros H; inversion H; subst. split; [|assumption].
  eapply send_reply; eauto.
Qed.

Lemma batch_of_dict data batch :
  batch_of data = Ok batch -> exists d, data = PDict d.
Proof. destruct data; simpl; try discriminate. eauto. Qed.

Lemma total_of_missing d off :
  field "total" d = None -> total_of (PDict d) off = Ok off.
Proof. intros H. unfold total_of, get. now rewrite H. Qed.

(** Without totals a pass goes round the loop again only after a failed
    request, which leaves the offset, the items and the checkpoint alone. *)
Lemma continue_without_total st st' :
  omits_total srv ->
  loop_body srv access_token st = Continue st' ->
  all_items st' = all_items st /\ offset st' = offset st
  /\ checkpoint st' = checkpoint st /\ batch_size st' = batch_size st.
Proof.
  intros Hsrv.
  destruct (try_post srv (sent st) (payload access_token (batch_size st) (offset st)))
    as [[exc|r] log] eqn:Hpost.
  - rewrite (loop_body_hiccup srv access_token st exc log Hpost).
    intros H; inversion H; subst; simpl. repeat split.
  - destruct (json r) as [data|] eqn:Hj;
      [|unfold loop_body; rewrite Hpost, Hj; discriminate].
    destruct (batch_of data) as [[|x batch]|e] eqn:Hb.
    + rewrite (loop_body_empty srv access_token st r log data Hpost Hj Hb). discriminate.
    + rewrite (loop_body_page srv access_token st r log data (x :: batch) Hpost Hj Hb)
        by congruence.
      cbv zeta. destruct (batch_of_dict _ _ Hb) as [d ->].
      destruct (try_post_reply _ _ _ _ Hpost) as [[i Hi] _].
      rewrite (total_of_missing d _ (Hsrv i _ r d Hi Hj)).
      replace (_ >=? _) with true by (symmetry; apply Z.geb_le; lia). discriminate.
    + unfold loop_body; rewrite Hpost, Hj, Hb; discriminate.
Qed.

Lemma running_without_total k : forall st0 st,
  omits_total srv ->
  while_true k srv access_token st0 = Running st ->
  all_items st = all_items st0 /\ offset st = offset st0
  /\ checkpoint st = checkpoint st0 /\ batch_size st = batch_size st0.
Proof.
  induction k as [|k IH]; intros st0 st Hsrv H; simpl in H.
  - inversion H; subst. repeat split.
  - destruct (loop_body srv access_token st0) as [st1|st1|e st1] eqn:Hbody;
      [|discriminate|discriminate].
    destruct (continue_without_total st0 st1 Hsrv Hbody) as (H1 & H2 & H3 & H4).
    destruct (IH st1 st Hsrv H) as (H1' & H2' & H3' & H4').
    repeat split; congruence.
Qed.

(** A page with items and no total ends the run in the pass that receives
    it. *)
Lemma page_without_total fuel st r log d batch :
  try_post srv (sent st) (payload access_token (batch_size st) (offset st)) = (inr r, log) ->
  json r = Some (PDict d) ->
  batch_of (PDict d) = Ok batch ->
  batch <> [] ->
  field "total" d = None ->
  exists st',
    while_true (S fuel) srv access_token st = Returned (all_items st ++ batch) st'
    /\ checkpoint st' = None
    /\ offset st' = offset st + Z.of_nat (List.length batch)
    /\ sent st' = log.
Proof.
  intros Hpost Hj Hb Hne Hnone. simpl.
  rewrite (loop_body_page srv access_token st r log (PDict d) batch Hpost Hj Hb Hne).
  cbv zeta. rewrite (total_of_missing d _ Hnone).
  replace (_ >=? _) with true by (symmetry; apply Z.geb_le; lia).
  unfold finish; simpl. eexists. repeat split.
Qed.

End Reading.

(** C5. When the responses carry no total, the total is taken to be the
    offset just reached: the run is still in the loop only while no page with
    items has arrived, and the first response with a page of items ends it in
    that very pass; the run returns the items of that page alone, with the
    checkpoint unlinked, whatever is left on the remote end. *)
Theorem missing_total_stops_after_first_page (k extra : nat) (srv : server)
    (f : checkpoint_file) (access_token : string) (b : Z) (st : state)
    (r : response) (log : list form) (data : pyval) (batch : list pyval) :
  omits_total srv ->
  fetch_pocket_items k srv f access_token b = Running st ->
  try_post srv (sent st) (payload access_token (batch_size st) (offset st)) = (inr r, log) ->
  json r = Some data ->
  batch_of data = Ok batch ->
  batch <> [] ->
  total_of data (offset st + Z.of_nat (List.length batch))
    = Ok (offset st + Z.of_nat (List.length batch))
  /\ exists st',
       fetch_pocket_items (k + S extra) srv f access_token b = Returned batch st'
       /\ checkpoint st' = None
       /\ offset st' = _read_checkpoint f + Z.of_nat (List.length batch)
       /\ sent st' = log.
Proof.
  intros Hsrv Hrun Hpost Hj Hb Hne.
  destruct (batch_of_dict _ _ Hb) as [d ->].
  destruct (try_post_reply srv _ _ _ _ Hpost) as [[i Hi] _].
  pose proof (Hsrv i _ r d Hi Hj) as Hnone.
  split; [now apply total_of_missing|].
  unfold fetch_pocket_items in *.
  destruct (running_without_total srv access_token k _ _ Hsrv Hrun) as (Hitems & Hoff & _).
  rewrite (while_true_more srv access_token k _ st (S extra) Hrun).
  destruct (page_without_total srv access_token extra st r log d batch
              Hpost Hj Hb Hne Hnone) as (st' & Hret & Hck & Hoff' & Hsent).
  exists st'. rewrite Hret, Hitems. simpl all_items.
  repeat split; try assumption. rewrite Hoff', Hoff. reflexivity.
Qed.

Lemma missing_total_stops_after_first_page_witness :
  let page := PDict [("list", PDict [("a", PStr "x"); ("b", PStr "y")])] in
  let srv := after_outage 6 (answers 200 (Some page)) in
  exists st',
    fetch_pocket_items 2 srv None "token" 30 = Returned [PStr "x"; PStr "y"] st'
    /\ checkpoint st' = None
    /\ offset st' = 2
    /\ List.length (sent st') = 7%nat.
Proof.
  intros page srv.
  assert (Hsrv : omits_total srv).
  { intros i p r d. unfold srv, after_outage, answers.
    destruct (i <? 6)%nat; [discriminate|].
    intros H Hj. inversion H; subst. simpl in Hj. inversion Hj; subst. reflexivity. }
  pose (st := state_of (fetch_pocket_items 1 srv None "token" 30)).
  destruct (missing_total_stops_after_first_page 1 0 srv None "token" 30 st
              {| status_code := 200; json := Some page |}
              (sent st ++ [payload "token" 30 0]) page [PStr "x"; PStr "y"]
              Hsrv eq_refl eq_refl eq_refl eq_refl)
    as (_ & st' & Hret & Hck & Hoff & Hsent); [discriminate|].
  exists st'. split; [exact Hret|]. split; [exact Hck|]. split; [exact Hoff|].
  rewrite Hsent. reflexivity.
Defined.

(** ** Responses with an error status *)

Section Rejected.

Variable srv : server.
Variable access_token : string.

Lemma forced_rejected s : forced s = true -> 400 <= s < 600.
Proof.
  unfold forced, status_forcelist; simpl.
  rewrite !orb_true_iff, !Z.eqb_eq. intuition (try lia; try discriminate).
Qed.

Lemma rejected_raises r :
  400 <= status_code r < 600 -> raise_for_status r = Some (HTTPError (status_code r)).
Proof.
  intros [Hlo Hhi]. unfold raise_for_status.
  apply Z.leb_le in Hlo. apply Z.ltb_lt in Hhi. now rewrite Hlo, Hhi.
Qed.

Lemma send_rejected retries : forall log p,
  always_rejects srv ->
  exists r log', send retries srv log p = (inr r, log') /\ 400 <= status_code r < 600.
Proof.
  induction retries as [|n IH]; intros log p Hsrv; simpl;
    destruct (Hsrv (List.length log) p) as (r & -> & Hr).
  - destruct (forced (status_code r)); eauto.
  - destruct (forced (status_code r)); eauto.
Qed.

Lemma send_forced retries : forall log p,
  always_forced srv ->
  exists r, send retries srv log p = (inr r, log ++ repeat p (S retries))
            /\ forced (status_code r) = true.
Proof.
  induction retries as [|n IH]; intros log p Hsrv; simpl;
    destruct (Hsrv (List.length log) p) as (r & -> & Hr); rewrite Hr.
  - eauto.
  - destruct (IH (log ++ [p]) p Hsrv) as (r' & -> & Hr'). exists r'.
    rewrite <- app_assoc. auto.
Qed.

(** A response with a status from 400 to 599 makes the pass a retry. *)
Lemma rejected_pass st r log :
  _post srv (sent st) (payload access_token (batch_size st) (offset st)) = (inr r, log) ->
  400 <= status_code r < 600 ->
  loop_body srv access_token st =
  Continue {| batch_size := batch_size st; offset := offset st;
              all_items := all_items st; checkpoint := checkpoint st;
              sent := log;
              stdout := stdout st ++ [HiccupNotice (offset st) (HTTPError (status_code r))];
              naps := S (naps st) |}.
Proof.
  intros Hpost Hr. apply loop_body_hiccup.
  unfold try_post. now rewrite Hpost, (rejected_raises r Hr).
Qed.

Lemma rejected_run fuel : forall st,
  always_rejects srv ->
  exists st',
    while_true fuel srv access_token st = Running st'
    /\ offset st' = offset st /\ all_items st' = all_items st
    /\ checkpoint st' = checkpoint st /\ naps st' = (naps st + fuel)%nat.
Proof.
  induction fuel as [|fuel IH]; intros st Hsrv; simpl.
  - exists st. repeat split. lia.
  - destruct (send_rejected retry_total (sent st)
                (payload access_token (batch_size st) (offset st)) Hsrv)
      as (r & log & Hsend & Hr).
    rewrite (rejected_pass st r log Hsend Hr).
    destruct (IH {| batch_size := batch_size st; offset := offset st;
                    all_items := all_items st; checkpoint := checkpoint st;
                    sent := log;
                    stdout := stdout st ++ [HiccupNotice (offset st) (HTTPError (status_code r))];
                    naps := S (naps st) |} Hsrv)
      as (st' & Hrun & Ho & Hi & Hc & Hn).
    exists st'. simpl in *. repeat split; try assumption. lia.
Qed.

Lemma forced_always_rejects : always_forced srv -> always_rejects srv.
Proof.
  intros H i p. destruct (H i p) as (r & Hr & Hf). exists r.
  split; [assumption|]. now apply forced_rejected.
Qed.

(** With forced statuses only, every pass spends the whole retry budget. *)
Lemma forced_run_sent fuel : forall st,
  always_forced srv ->
  List.length (sent (state_of (while_true fuel srv access_token st)))
  = (List.length (sent st) + S retry_total * fuel)%nat.
Proof.
  induction fuel as [|fuel IH]; intros st Hsrv; simpl while_true.
  - simpl. lia.
  - destruct (send_forced retry_total (sent st)
                (payload access_token (batch_size st) (offset st)) Hsrv)
      as (r & Hsend & Hf).
    rewrite (rejected_pass st r _ Hsend (forced_rejected _ Hf)).
    rewrite IH by assumption. cbn [sent]. rewrite length_app, repeat_length. lia.
Qed.

End Rejected.

(** C2 as the code has it. When the remote end answers every request with a
    status of the force list and no [Retry-After] header, each pass of the loop puts the request on the
    wire six times (one try and the five retries of the session), gets the
    last response back, raises on its status and is caught: the driver sleeps
    and asks for the same offset again.  The run never fails and never
    returns; the checkpoint, the offset and the accumulated items stay as
    they were at the start. *)
Theorem forced_status_retried_forever (fuel : nat) (srv : server) (f : checkpoint_file)
    (access_token : string) (b : Z) :
  always_forced srv ->
  exists st,
    fetch_pocket_items fuel srv f access_token b = Running st
    /\ checkpoint st = f
    /\ offset st = _read_checkpoint f
    /\ all_items st = []
    /\ List.length (sent st) = (S retry_total * fuel)%nat
    /\ naps st = fuel.
Proof.
  intros Hsrv. unfold fetch_pocket_items.
  destruct (rejected_run srv access_token fuel (start b f)
              (forced_always_rejects srv Hsrv)) as (st & Hrun & Ho & Hi & Hc & Hn).
  pose proof (forced_run_sent srv access_token fuel (start b f) Hsrv) as Hsent.
  rewrite Hrun in Hsent. simpl in Hsent.
  exists st. repeat split; assumption.
Qed.

Lemma always_503_forced : always_forced (always 503).
Proof. intros i p. eexists. split; reflexivity. Qed.

Lemma forced_status_retried_forever_witness :
  exists st,
    fetch_pocket_items 4 (always 503) (Some "30") "token" 30 = Running st
    /\ checkpoint st = Some "30"
    /\ offset st = 30
    /\ List.length (sent st) = 24%nat.
Proof.
  destruct (forced_status_retried_forever 4 (always 503) (Some "30") "token" 30
              always_503_forced) as (st & Hrun & Hc & Ho & _ & Hs & _).
  exists st. split; [exact Hrun|]. split; [exact Hc|]. split; [exact Ho|exact Hs].
Defined.

(** C2 as stated fails: against a remote end that always answers 503 no
    number of passes brings the run to a failure. *)
Lemma forced_status_never_fails :
  ~ exists fuel e st,
      fetch_pocket_items fuel (always 503) (Some "30") "token" 30 = Raised e st.
Proof.
  intros (fuel & e & st & H). unfold fetch_pocket_items in H.
  destruct (rejected_run (always 503) "token" fuel (start 30 (Some "30"))
              (forced_always_rejects _ always_503_forced)) as (st' & Hrun & _).
  rewrite Hrun in H. discriminate H.
Qed.

(** C3 as the code has it. A response with a status from 400 to 599, in the
    force list or not, is not fatal: the pass prints a notice, sleeps and
    goes round the loop with the offset, the items and the checkpoint
    untouched.  A response with any other status whose body is not JSON is
    fatal: the decoding error leaves [fetch_pocket_items] with the checkpoint
    untouched.  Whenever an exception leaves a run, the checkpoint reads as
    the offset reached, which is the offset at the start plus the number of
    items of the pages completed. *)
Theorem fatal_and_retried_responses (fuel : nat) (srv : server) (access_token : string)
    (st : state) (r : response) (log : list form)
    (f : checkpoint_file) (b : Z) (e : exn) (st_f : state) :
  (_post srv (sent st) (payload access_token (batch_size st) (offset st)) = (inr r, log) ->
   400 <= status_code r < 600 ->
   loop_body srv access_token st =
   Continue {| batch_size := batch_size st; offset := offset st;
               all_items := all_items st; checkpoint := checkpoint st;
               sent := log;
               stdout := stdout st ++ [HiccupNotice (offset st) (HTTPError (status_code r))];
               naps := S (naps st) |})
  /\ (_post srv (sent st) (payload access_token (batch_size st) (offset st)) = (inr r, log) ->
      ~ 400 <= status_code r < 600 ->
      json r = None ->
      while_true (S fuel) srv access_token st =
      Raised JSONDecodeError
             {| batch_size := batch_size st; offset := offset st;
                all_items := all_items st; checkpoint := checkpoint st;
                sent := log; stdout := stdout st; naps := naps st |})
  /\ (fetch_pocket_items fuel srv f access_token b = Raised e st_f ->
      _read_checkpoint (checkpoint st_f) = offset st_f
      /\ offset st_f = _read_checkpoint f + Z.of_nat (List.length (all_items st_f))).
Proof.
  split; [|split].
  - apply rejected_pass.
  - intros Hpost Hr Hj. simpl. unfold loop_body, try_post. rewrite Hpost.
    assert (Hok : raise_for_status r = None).
    { unfold raise_for_status.
      destruct (400 <=? status_code r) eqn:Hlo; [|reflexivity].
      destruct (status_code r <? 600) eqn:Hhi; [|reflexivity].
      apply Z.leb_le in Hlo. apply Z.ltb_lt in Hhi. lia. }
    now rewrite Hok, Hj.
  - intros Hrun. pose proof (run_bookkeeping fuel srv f access_token b) as H.
    rewrite Hrun in H. destruct H as (Hck & Hlen & _). split; [assumption|lia].
Qed.

Lemma fatal_and_retried_responses_witness :
  (exists st', loop_body (always 404) "token" (start 30 (Some "30")) = Continue st'
               /\ offset st' = 30 /\ checkpoint st' = Some "30" /\ naps st' = 1%nat)
  /\ (exists st', fetch_pocket_items 1 (answers 200 None) (Some "30") "token" 30
                  = Raised JSONDecodeError st'
                  /\ _read_checkpoint (checkpoint st') = 30
                  /\ offset st' = 30).
Proof.
  pose (st := start 30 (Some "30")).
  pose (p := payload "token" 30 30).
  pose (failed := {| batch_size := 30; offset := 30; all_items := [];
                     checkpoint := Some "30"; sent := [p];
                     stdout := [ResumeNotice 30]; naps := 0 |}).
  destruct (fatal_and_retried_responses 0 (always 404) "token" st
              {| status_code := 404; json := None |} [p]
              None 30 JSONDecodeError st) as (Hretry & _ & _).
  destruct (fatal_and_retried_responses 0 (answers 200 None) "token" st
              {| status_code := 200; json := None |} [p]
              None 30 JSONDecodeError st) as (_ & Hfatal & _).
  destruct (fatal_and_retried_responses 1 (answers 200 None) "token" st
              {| status_code := 200; json := None |} [p]
              (Some "30") 30 JSONDecodeError failed) as (_ & _ & Hkept).
  assert (H1 := Hretry eq_refl ltac:(simpl; lia)).
  assert (H2 := Hfatal eq_refl ltac:(simpl; lia) eq_refl).
  split.
  - eexists. split; [exact H1|]. repeat split.
  - exists failed. split; [exact H2|]. apply Hkept. exact H2.
Defined.

Lemma always_404_rejects : always_rejects (always 404).
Proof. intros i p. eexists. split; [reflexivity|]. simpl. lia. Qed.

(** C3 as stated fails: 404 is an error status outside the force list, and
    against a remote end that always answers 404 no number of passes brings
    the run to a failure. *)
Lemma client_error_never_fails :
  forced 404 = false
  /\ ~ exists fuel e st,
        fetch_pocket_items fuel (always 404) (Some "30") "token" 30 = Raised e st.
Proof.
  split; [reflexivity|].
  intros (fuel & e & st & H). unfold fetch_pocket_items in H.
  destruct (rejected_run (always 404) "token" fuel (start 30 (Some "30"))
              always_404_rejects) as (st' & Hrun & _).
  rewrite Hrun in H. discriminate H.
Qed.

(** ** Paging through a collection *)

Lemma pages_needed_last a P : 1 <= a <= P -> pages_needed a P = 1.
Proof.
  intros H. unfold pages_needed. symmetry.
  apply (Z.div_unique_pos _ _ 1 (a - 1)); lia.
Qed.

Lemma pages_needed_more a P : 1 <= P < a -> pages_needed a P = 1 + pages_needed (a - P) P.
Proof.
  intros H. unfold pages_needed.
  replace (a + P - 1) with ((a - P + P - 1) + 1 * P) by lia.
  rewrite Z.div_add by lia. lia.
Qed.

Lemma send_accepted retries srv log p r :
  srv (List.length log) p = Reply r ->
  forced (status_code r) = false ->
  send retries srv log p = (inr r, log ++ [p]).
Proof. intros Hr Hf. destruct retries; simpl; now rewrite Hr, Hf. Qed.

Section Paging.

Variable coll : collection.
Variable access_token : string.
Variable P : Z.
Hypothesis P_pos : 1 <= P.

Let N : nat := List.length coll.
Let size : nat := Z.to_nat P.

Lemma remote_page log (o : nat) :
  try_post (remote coll) log (payload access_token P (Z.of_nat o))
  = (inr {| status_code := 200;
            json := Some (PDict [ ("list", PDict (firstn size (skipn o coll)));
                                  ("total", PInt (Z.of_nat N)) ]) |},
     log ++ [payload access_token P (Z.of_nat o)]).
Proof.
  unfold try_post, _post.
  rewrite (send_accepted retry_total (remote coll) log _
             {| status_code := 200;
                json := Some (PDict [ ("list", PDict (firstn size (skipn o coll)));
                                      ("total", PInt (Z.of_nat N)) ]) |}).
  - reflexivity.
  - unfold remote. rewrite payload_offset, payload_count, !py_int_py_str.
    now rewrite Nat2Z.id.
  - reflexivity.
Qed.

Lemma page_length (o : nat) :
  List.length (map snd (firstn size (skipn o coll))) = Nat.min size (N - o).
Proof. now rewrite length_map, length_firstn, length_skipn. Qed.

(** One pass against the collection: the page at [o] is merged, and the loop
    is left exactly when that page reaches the end of the collection. *)
Lemma remote_pass st (o : nat) :
  offset st = Z.of_nat o ->
  batch_size st = P ->
  (o < N)%nat ->
  exists st2,
    all_items st2 = all_items st ++ map snd (firstn size (skipn o coll))
    /\ offset st2 = Z.of_nat (Nat.min (o + size) N)
    /\ batch_size st2 = P
    /\ sent st2 = sent st ++ [payload access_token P (Z.of_nat o)]
    /\ loop_body (remote coll) access_token st
       = if (N <=? o + size)%nat then Break st2 else Continue st2.
Proof.
  intros Ho Hb Hlt.
  pose proof (remote_page (sent st) o) as Hpost. rewrite <- Ho, <- Hb in Hpost at 1.
  assert (Hne : map snd (firstn size (skipn o coll)) <> []).
  { intros Hnil. apply (f_equal (@List.length _)) in Hnil.
    rewrite page_length in Hnil. simpl in Hnil. subst size. lia. }
  rewrite (loop_body_page (remote coll) access_token st _ _ _ _ Hpost eq_refl eq_refl Hne).
  cbv zeta. unfold total_of, get; simpl field; simpl bind.
  rewrite page_length, Ho.
  eexists. split; [|split; [|split; [|split]]].
  5: { destruct (Nat.leb_spec N (o + size)) as [Hle|Hgt].
       - replace (_ >=? _) with true by (symmetry; apply Z.geb_le; lia). reflexivity.
       - replace (_ >=? _) with false; [reflexivity|].
         symmetry. rewrite Z.geb_leb. apply Z.leb_gt. lia. }
  - reflexivity.
  - simpl. lia.
  - simpl. assumption.
  - reflexivity.
Qed.

Lemma remote_run n : forall (o : nat) st extra,
  (N - o <= n)%nat ->
  (o < N)%nat ->
  offset st = Z.of_nat o ->
  batch_size st = P ->
  exists st',
    while_true (Z.to_nat (pages_needed (Z.of_nat (N - o)) P) + extra)
      (remote coll) access_token st
    = Returned (all_items st ++ map snd (skipn o coll)) st'
    /\ List.length (sent st')
       = (List.length (sent st) + Z.to_nat (pages_needed (Z.of_nat (N - o)) P))%nat
    /\ offset st' = Z.of_nat N
    /\ checkpoint st' = None.
Proof.
  induction n as [|n IH]; intros o st extra Hn Hlt Ho Hb; [lia|].
  destruct (remote_pass st o Ho Hb Hlt) as (st2 & Hitems & Hoff & Hb2 & Hsent & Hbody).
  destruct (Nat.leb_spec N (o + size)) as [Hle|Hgt].
  - rewrite pages_needed_last by (subst size; lia). simpl. rewrite Hbody.
    unfold finish. eexists. split; [|split; [|split]].
    + rewrite Hitems. rewrite firstn_all2 by (rewrite length_skipn; lia). reflexivity.
    + cbn [sent]. rewrite Hsent, length_app. simpl. lia.
    + cbn [offset]. rewrite Hoff. f_equal. lia.
    + reflexivity.
  - rewrite pages_needed_more by (subst size; lia).
    assert (Hpages : 0 <= pages_needed (Z.of_nat (N - o) - P) P)
      by (unfold pages_needed; apply Z.div_pos; subst size; lia).
    rewrite Z2Nat.inj_add by lia. simpl Z.to_nat at 1.
    change (Pos.to_nat 1) with 1%nat. simpl while_true. rewrite Hbody.
    assert (Hoff2 : offset st2 = Z.of_nat (o + size)) by (rewrite Hoff; f_equal; lia).
    destruct (IH (o + size)%nat st2 extra ltac:(subst size; lia) Hgt Hoff2 Hb2)
      as (st' & Hrun & Hlen & Hend & Hck).
    replace (Z.of_nat (N - o) - P) with (Z.of_nat (N - (o + size))) by (subst size; lia).
    exists st'. split; [|split; [|split]]; try assumption.
    + rewrite Hrun, Hitems, <- app_assoc, <- map_app. do 3 f_equal.
      rewrite <- (firstn_skipn size (skipn o coll)) at 2.
      f_equal. rewrite skipn_skipn. f_equal. lia.
    + rewrite Hlen, Hsent, length_app. simpl. lia.
Qed.

(** An empty collection is learnt from one request. *)
Lemma remote_empty fuel st :
  coll = [] ->
  offset st = 0 ->
  batch_size st = P ->
  exists st',
    while_true (S fuel) (remote coll) access_token st = Returned (all_items st) st'
    /\ List.length (sent st') = S (List.length (sent st))
    /\ offset st' = 0
    /\ checkpoint st' = None.
Proof.
  intros Hnil Ho Hb.
  pose proof (remote_page (sent st) 0) as Hpost.
  change (Z.of_nat 0) with 0 in Hpost. rewrite <- Ho, <- Hb in Hpost at 1.
  simpl while_true.
  rewrite (loop_body_empty (remote coll) access_token st _ _ _ Hpost eq_refl).
  - unfold finish. eexists. split; [reflexivity|]. simpl.
    rewrite length_app. simpl. repeat split; [lia|assumption].
  - rewrite Hnil. now destruct size.
Qed.

End Paging.

Lemma pages_needed_empty P : 1 <= P -> pages_needed 0 P = 0.
Proof. intros H. unfold pages_needed. apply Z.div_small. lia. Qed.

Lemma pages_needed_pos a P : 1 <= a -> 1 <= P -> 1 <= pages_needed a P.
Proof.
  intros Ha HP. unfold pages_needed. apply Z.div_le_lower_bound; lia.
Qed.

Lemma start_uncapped P f :
  P <= MAX_BATCH ->
  batch_size (start P f) = P /\ offset (start P f) = _read_checkpoint f
  /\ all_items (start P f) = [] /\ sent (start P f) = [].
Proof.
  intros H. unfold start; simpl.
  replace (P >? MAX_BATCH) with false; [repeat split|].
  symmetry. rewrite Z.gtb_ltb. apply Z.ltb_ge. lia.
Qed.

(** C1 as the code has it. Against a collection of [N] items served in pages
    of [P] items, [1 <= P <= 30], a run without checkpoint returns the [N]
    items, in order, after [ceil(N/P)] requests when [N >= 1] and after one
    request when [N = 0]: the empty collection is learnt from a request that
    comes back with an empty page.  With 65 items and pages of 30 the
    requests ask for the offsets 0, 30 and 60, the pages hold 30, 30 and 5
    items, the offset ends at 65 and the checkpoint is unlinked. *)
Theorem pages_until_exhausted (coll : collection) (access_token : string) (P : Z)
    (extra : nat) :
  (exists st,
     fetch_pocket_items 3 (remote (numbered 65)) None access_token 30
     = Returned (map snd (numbered 65)) st
     /\ offsets_of (sent st) = [Some "0"; Some "30"; Some "60"]
     /\ map (fun q => page_size (remote (numbered 65) 0%nat q)) (sent st)
        = [Some 30%nat; Some 30%nat; Some 5%nat]
     /\ offset st = 65
     /\ checkpoint st = None
     /\ List.length (map snd (numbered 65)) = 65%nat)
  /\ (1 <= P <= 30 ->
      let N := Z.of_nat (List.length coll) in
      let pages := Z.to_nat (Z.max 1 (pages_needed N P)) in
      exists st,
        fetch_pocket_items (pages + extra) (remote coll) None access_token P
        = Returned (map snd coll) st
        /\ List.length (sent st) = pages
        /\ offset st = N
        /\ checkpoint st = None).
Proof.
  split.
  - eexists. split; [vm_compute; reflexivity|]. repeat split.
  - intros [Hlo Hhi] N pages. unfold fetch_pocket_items.
    destruct (start_uncapped P None) as (Hb & Ho & Hi & Hs); [unfold MAX_BATCH; lia|].
    simpl in Ho.
    destruct (Nat.eq_dec (List.length coll) 0) as [Hzero|Hsome].
    + pose proof Hzero as Hnil. apply length_zero_iff_nil in Hnil.
      subst N pages. rewrite Hzero. change (Z.of_nat 0) with 0.
      rewrite (pages_needed_empty P Hlo). simpl Z.to_nat.
      change (Pos.to_nat 1 + extra)%nat with (S extra).
      destruct (remote_empty coll access_token P extra (start P None) Hnil Ho Hb)
        as (st & Hrun & Hlen & Hoff & Hck).
      exists st. rewrite Hrun, Hi, Hlen, Hs, Hnil. repeat split; assumption.
    + assert (HN : 1 <= N) by (subst N; lia).
      pose proof (pages_needed_pos N P HN Hlo) as Hpages.
      subst pages. rewrite Z.max_r by lia.
      destruct (remote_run coll access_token P Hlo (List.length coll) 0%nat
                  (start P None) extra) as (st & Hrun & Hlen & Hoff & Hck);
        [lia | lia | exact Ho | exact Hb |].
      rewrite Nat.sub_0_r in Hrun, Hlen. fold N in Hrun, Hlen.
      exists st. rewrite Hrun, Hi, Hlen, Hs. simpl. repeat split; assumption.
Qed.

Lemma pages_until_exhausted_witness :
  exists st,
    fetch_pocket_items 4 (remote (numbered 100)) None "token" 25
    = Returned (map snd (numbered 100)) st
    /\ List.length (sent st) = 4%nat
    /\ offset st = 100
    /\ checkpoint st = None.
Proof.
  destruct (pages_until_exhausted (numbered 100) "token" 25 0) as [_ H].
  exact (H ltac:(lia)).
Defined.

(** C1 as stated fails on the empty collection: zero pages cover zero items,
    yet no run against it returns with zero requests sent; the run that
    returns has sent one. *)
Lemma empty_collection_takes_one_request :
  pages_needed 0 30 = 0
  /\ (exists st, fetch_pocket_items 1 (remote []) None "token" 30 = Returned [] st
                 /\ List.length (sent st) = 1%nat)
  /\ ~ exists fuel items st,
        fetch_pocket_items fuel (remote []) None "token" 30 = Returned items st
        /\ Z.of_nat (List.length (sent st)) = pages_needed 0 30.
Proof.
  split; [reflexivity|]. split.
  - eexists. split; [vm_compute; reflexivity|reflexivity].
  - intros (fuel & items & st & Hrun & Hlen). unfold fetch_pocket_items in Hrun.
    destruct fuel as [|fuel]; [discriminate Hrun|].
    destruct (start_uncapped 30 None) as (Hb & Ho & _ & Hs); [unfold MAX_BATCH; lia|].
    destruct (remote_empty [] "token" 30 fuel (start 30 None) eq_refl Ho Hb)
      as (st' & Hrun' & Hlen' & _).
    rewrite Hrun' in Hrun. inversion Hrun; subst.
    rewrite Hlen', Hs in Hlen. vm_compute in Hlen. discriminate Hlen.
Qed.

(** * Further properties *)

(** ** The retry budget of the session *)

Lemma send_outcome retries srv : forall log p res log',
  send retries srv log p = (res, log') ->
  exists k, (k <= retries)%nat
    /\ log' = log ++ repeat p (S k)
    /\ (forall j, (j < k)%nat ->
          retried (srv (List.length log + j)%nat p) = true
          /\ unreadable (srv (List.length log + j)%nat p) = false)
    /\ ends_with retries k (srv (List.length log + k)%nat p) res.
Proof.
  induction retries as [|n IH]; intros log p res log'.
  - assert (Hnow : forall a, srv (List.length log) p = a -> ends_with 0 0 a res ->
              log' = log ++ [p] ->
              exists k, (k <= 0)%nat /\ log' = log ++ repeat p (S k)
                /\ (forall j, (j < k)%nat ->
                      retried (srv (List.length log + j)%nat p) = true
                      /\ unreadable (srv (List.length log + j)%nat p) = false)
                /\ ends_with 0 k (srv (List.length log + k)%nat p) res).
    { intros a Ha Hend Hlog. exists O. rewrite Nat.add_0_r, Ha.
      split; [lia|]. split; [exact Hlog|]. split; [intros j Hj; lia|exact Hend]. }
    simpl. destruct (srv (List.length log) p) as [|r|r h] eqn:E.
    + intros H; inversion H; subst. apply (Hnow NoReply eq_refl); simpl; auto.
    + intros H.
      assert (H' : (inr r : request_exception + response, log ++ [p]) = (res, log'))
        by (destruct (forced (status_code r)); exact H).
      inversion H'; subst. apply (Hnow (Reply r) eq_refl); simpl; auto.
    + intros H.
      assert (H' : (inr r : request_exception + response, log ++ [p]) = (res, log'))
        by (destruct (forced (status_code r) || waits (status_code r) h); exact H).
      inversion H'; subst. apply (Hnow (ReplyAfter r h) eq_refl); simpl; auto.
  - assert (Hagain : retried (srv (List.length log) p) = true ->
              unreadable (srv (List.length log) p) = false ->
              send n srv (log ++ [p]) p = (res, log') ->
              exists k, (k <= S n)%nat /\ log' = log ++ repeat p (S k)
                /\ (forall j, (j < k)%nat ->
                      retried (srv (List.length log + j)%nat p) = true
                      /\ unreadable (srv (List.length log + j)%nat p) = false)
                /\ ends_with (S n) k (srv (List.length log + k)%nat p) res).
    { intros Hfirst Hread Hsend.
      destruct (IH _ _ _ _ Hsend) as (k & Hk & Hlog & Hbefore & Hlast).
      rewrite length_app in Hbefore, Hlast. simpl List.length in Hbefore, Hlast.
      exists (S k). split; [lia|]. split; [rewrite Hlog, <- app_assoc; reflexivity|].
      split.
      - intros [|j] Hj; [rewrite Nat.add_0_r; auto|].
        replace (List.length log + S j)%nat with (List.length log + 1 + j)%nat by lia.
        apply Hbefore. lia.
      - replace (List.length log + S k)%nat with (List.length log + 1 + k)%nat by lia.
        unfold ends_with in *. destruct res as [[| |status]|r0].
        + destruct Hlast as [-> Hno]. auto.
        + destruct Hlast as (Hlt & Hr & Hu). repeat split; auto. lia.
        + exact Hlast.
        + destruct Hlast as [Hr Hf]. split; [assumption|]. intros H. now rewrite Hf. }
    assert (Hnow : forall a, srv (List.length log) p = a -> ends_with (S n) 0 a res ->
              log' = log ++ [p] ->
              exists k, (k <= S n)%nat /\ log' = log ++ repeat p (S k)
                /\ (forall j, (j < k)%nat ->
                      retried (srv (List.length log + j)%nat p) = true
                      /\ unreadable (srv (List.length log + j)%nat p) = false)
                /\ ends_with (S n) k (srv (List.length log + k)%nat p) res).
    { intros a Ha Hend Hlog. exists O. rewrite Nat.add_0_r, Ha.
      split; [lia|]. split; [exact Hlog|]. split; [intros j Hj; lia|exact Hend]. }
    simpl send. destruct (srv (List.length log) p) as [|r|r h] eqn:E.
    + apply Hagain; reflexivity.
    + destruct (forced (status_code r)) eqn:Hf.
      * apply Hagain; [exact Hf|reflexivity].
      * intros H; inversion H; subst. apply (Hnow (Reply r) eq_refl); [|reflexivity].
        simpl. split; [reflexivity|]. rewrite Hf. discriminate.
    + destruct (forced (status_code r) || waits (status_code r) h) eqn:Hf.
      * destruct h.
        -- intros H; inversion H; subst.
           apply (Hnow (ReplyAfter r Blank) eq_refl); [|reflexivity].
           simpl. split; [lia|]. split; [exact Hf|reflexivity].
        -- intros H; inversion H; subst.
           apply (Hnow (ReplyAfter r Garbled) eq_refl); [|reflexivity].
           simpl. split; [lia|]. split; [exact Hf|reflexivity].
        -- apply Hagain; [exact Hf|reflexivity].
      * intros H; inversion H; subst. apply (Hnow (ReplyAfter r h) eq_refl); [|reflexivity].
        simpl. split; [reflexivity|]. rewrite Hf. discriminate.
Qed.

(** X1. One call of [_post] puts the same request on the wire at least once
    and at most six times, and makes another exchange only after one that got
    no reply, a status of the force list, or a status 413, 429 or 503 with a
    [Retry-After] header it could read.  It raises [ConnectionError] only
    when all six exchanges were spent and the last one got no reply, and
    [InvalidHeader] only when it wanted to try again after a response whose
    [Retry-After] header it could not read; otherwise it hands back the
    response to the last request, and a response it would have tried again
    is handed back only as the sixth. *)
Theorem post_spends_budget_before_giving_up (srv : server) (log : list form) (p : form) :
  exists k, (k <= 5)%nat
    /\ snd (_post srv log p) = log ++ repeat p (S k)
    /\ (forall j, (j < k)%nat ->
          retried (srv (List.length log + j)%nat p) = true
          /\ unreadable (srv (List.length log + j)%nat p) = false)
    /\ match fst (_post srv log p) with
       | inl ConnectionError => k = 5%nat /\ srv (List.length log + k)%nat p = NoReply
       | inl InvalidHeader =>
           (k < 5)%nat
           /\ retried (srv (List.length log + k)%nat p) = true
           /\ unreadable (srv (List.length log + k)%nat p) = true
       | inl (HTTPError _) => False
       | inr r =>
           response_of (srv (List.length log + k)%nat p) = Some r
           /\ (retried (srv (List.length log + k)%nat p) = true -> k = 5%nat)
       end.
Proof.
  unfold _post. destruct (send retry_total srv log p) as [res log'] eqn:E.
  exact (send_outcome retry_total srv log p res log' E).
Qed.

(** A status 429 that names a time to wait is asked for again until the
    budget is spent, and is then handed back; without the header it is handed
    back at once; a 503 whose header cannot be read ends the call after one
    exchange with an exception the fetch loop catches. *)
Example post_with_retry_after (p : form) :
  _post (fun _ _ => ReplyAfter {| status_code := 429; json := None |} Wait) [] p
  = (inr {| status_code := 429; json := None |}, repeat p 6)
  /\ _post (always 429) [] p = (inr {| status_code := 429; json := None |}, [p])
  /\ _post (fun _ _ => ReplyAfter {| status_code := 503; json := None |} Garbled) [] p
     = (inl InvalidHeader, [p])
  /\ _post (fun _ _ => ReplyAfter {| status_code := 404; json := None |} Wait) [] p
     = (inr {| status_code := 404; json := None |}, [p]).
Proof. repeat split; reflexivity. Qed.

(** ** Reading a checkpoint written by hand *)

Lemma lstrip_spaces pre s : spaces_only pre = true -> lstrip (pre ++ s)%string = lstrip s.
Proof.
  induction pre as [|c r IH]; simpl; [reflexivity|].
  intros H. apply andb_prop in H. destruct H as [Hc Hr]. rewrite Hc. auto.
Qed.

Lemma rstrip_only_spaces s : spaces_only s = true -> rstrip s = EmptyString.
Proof.
  induction s as [|c r IH]; simpl; [reflexivity|].
  intros H. apply andb_prop in H. destruct H as [Hc Hr]. now rewrite (IH Hr), Hc.
Qed.

Lemma rstrip_spaces s post :
  spaces_only post = true -> rstrip (s ++ post)%string = rstrip s.
Proof.
  intros H. induction s as [|c r IH]; simpl.
  - now apply rstrip_only_spaces.
  - now rewrite IH.
Qed.

Lemma py_str_head z : exists c r, py_str z = String c r /\ is_space c = false.
Proof.
  unfold py_str. destruct z as [|p|p]; simpl.
  - exists "0"%char, EmptyString. split; reflexivity.
  - pose proof (DecimalPos.Unsigned.to_uint_nonnil p) as Hn.
    pose proof (digits_of_uint (Pos.to_uint p)) as Hd.
    replace (NilZero.string_of_uint (Pos.to_uint p))
      with (NilEmpty.string_of_uint (Pos.to_uint p))
      by (destruct (Pos.to_uint p); congruence || reflexivity).
    destruct (NilEmpty.string_of_uint (Pos.to_uint p)) as [|c r] eqn:E.
    + now apply string_of_uint_nonempty in E.
    + simpl in Hd. apply andb_prop in Hd. exists c, r.
      split; [reflexivity|]. apply digit_not_space. tauto.
  - exists "-"%char. eexists. split; reflexivity.
Qed.

Lemma strip_padded pre s post c r :
  spaces_only pre = true ->
  spaces_only post = true ->
  s = String c r ->
  is_space c = false ->
  strip (pre ++ s ++ post)%string = strip s.
Proof.
  intros Hpre Hpost -> Hc. unfold strip.
  rewrite lstrip_spaces by assumption. simpl lstrip. rewrite Hc.
  exact (rstrip_spaces (String c r) post Hpost).
Qed.

Lemma every_append f a b : every f (a ++ b)%string = every f a && every f b.
Proof. induction a as [|c r IH]; simpl; [reflexivity|]. now rewrite IH, andb_assoc. Qed.

Lemma spaces_only_every s : spaces_only s = every is_space s.
Proof. induction s as [|c r IH]; simpl; congruence. Qed.

(** X2. A checkpoint file whose number is surrounded by whitespace, such as
    the newline an editor or [echo] leaves behind, is read as that number: for
    every integer [z], negative ones included, [_read_checkpoint] gives [z]
    for the text of [str(z)] between any two runs of whitespace. *)
Theorem checkpoint_read_ignores_whitespace (z : Z) (pre post : string) :
  spaces_only pre = true ->
  spaces_only post = true ->
  _read_checkpoint (Some (pre ++ py_str z ++ post)%string) = z.
Proof.
  intros Hpre Hpost. unfold _read_checkpoint.
  assert (Hplain : every is_plain (pre ++ py_str z ++ post)%string = true).
  { rewrite !every_append, py_str_plain.
    rewrite spaces_only_every in Hpre, Hpost.
    now rewrite (every_implies _ _ _ space_plain Hpre),
                (every_implies _ _ _ space_plain Hpost). }
  rewrite (py_int_plain _ Hplain). unfold int_of_ascii.
  destruct (py_str_head z) as (c & r & Hs & Hc).
  rewrite (strip_padded pre (py_str z) post c r Hpre Hpost Hs Hc).
  pose proof (int_of_ascii_py_str z) as H. unfold int_of_ascii in H. now rewrite H.
Qed.

Lemma checkpoint_read_ignores_whitespace_witness :
  _read_checkpoint (Some "  60
") = 60.
Proof.
  apply (checkpoint_read_ignores_whitespace 60 "  " "
"); reflexivity.
Defined.

(** ** What a run prints *)

Section Printing.

Variable srv : server.
Variable access_token : string.

(** A property kept by every pass, stated on [loop_body] itself. *)
Lemma while_true_kept (Q : state -> Prop) :
  (forall st, Q st ->
     match loop_body srv access_token st with
     | Continue st' | Break st' | Throw _ st' => Q st'
     end) ->
  forall fuel st, Q st ->
  match while_true fuel srv access_token st with
  | Running st' | Raised _ st' => Q st'
  | Returned items st' => exists st0, Q st0 /\ finish st0 = Returned items st'
  end.
Proof.
  intros Hstep. induction fuel as [|fuel IH]; intros st HQ; simpl; [assumption|].
  pose proof (Hstep st HQ) as H.
  destruct (loop_body srv access_token st) as [st1|st1|e st1].
  - now apply IH.
  - exists st1. split; [assumption|reflexivity].
  - assumption.
Qed.

(** A pass prints nothing and does not sleep, or it prints one notice about
    the failed request and sleeps once. *)
Lemma loop_body_prints st :
  match loop_body srv access_token st with
  | Continue st' | Break st' | Throw _ st' =>
      (stdout st' = stdout st /\ naps st' = naps st)
      \/ (exists exc, stdout st' = stdout st ++ [HiccupNotice (offset st) exc]
                      /\ naps st' = S (naps st))
  end.
Proof.
  destruct (try_post srv (sent st) (payload access_token (batch_size st) (offset st)))
    as [[exc|r] log] eqn:Hpost.
  - rewrite (loop_body_hiccup srv access_token st exc log Hpost). right. exists exc. auto.
  - destruct (json r) as [data|] eqn:Hj;
      [|unfold loop_body; rewrite Hpost, Hj; left; auto].
    destruct (batch_of data) as [[|x batch]|e] eqn:Hb.
    + rewrite (loop_body_empty srv access_token st r log data Hpost Hj Hb). left; auto.
    + rewrite (loop_body_page srv access_token st r log data (x :: batch) Hpost Hj Hb)
        by congruence.
      cbv zeta. destruct (total_of data _) as [t|e]; [destruct (_ >=? t)|]; left; auto.
    + unfold loop_body; rewrite Hpost, Hj, Hb; left; auto.
Qed.

End Printing.

(** X3. What a run prints: before the loop the notice about the cap when the
    requested batch size is above 30, then the notice about resuming when the
    checkpoint offset is not zero; after that nothing but notices about
    failed requests, exactly one for each [time.sleep(5)]. *)
Theorem printed_lines (fuel : nat) (srv : server) (f : checkpoint_file)
    (access_token : string) (b : Z) :
  let st := state_of (fetch_pocket_items fuel srv f access_token b) in
  exists notes,
    stdout st =
      (if b >? MAX_BATCH then [BatchCapNotice b] else [])
      ++ (if _read_checkpoint f =? 0 then [] else [ResumeNotice (_read_checkpoint f)])
      ++ notes
    /\ forallb is_hiccup notes = true
    /\ List.length notes = naps st.
Proof.
  intros st. subst st. unfold fetch_pocket_items.
  set (Q := fun st : state => exists notes,
              stdout st = stdout (start b f) ++ notes
              /\ forallb is_hiccup notes = true
              /\ List.length notes = naps st).
  assert (Hstep : forall st, Q st ->
            match loop_body srv access_token st with
            | Continue st' | Break st' | Throw _ st' => Q st'
            end).
  { intros st (notes & Hout & Hall & Hlen).
    pose proof (loop_body_prints srv access_token st) as H.
    assert (Hgen : forall st',
              (stdout st' = stdout st /\ naps st' = naps st)
              \/ (exists exc, stdout st' = stdout st ++ [HiccupNotice (offset st) exc]
                              /\ naps st' = S (naps st)) -> Q st').
    { intros st' [[Ho Hn]|(exc & Ho & Hn)].
      - exists notes. rewrite Ho, Hn. auto.
      - exists (notes ++ [HiccupNotice (offset st) exc]).
        rewrite Ho, Hout, <- app_assoc, forallb_app, Hall, length_app, Hn. simpl.
        repeat split. lia. }
    destruct (loop_body srv access_token st); auto. }
  assert (Hstart : Q (start b f)).
  { exists []. rewrite app_nil_r. auto. }
  pose proof (while_true_kept srv access_token Q Hstep fuel _ Hstart) as H.
  assert (Hfinal : Q (state_of (while_true fuel srv access_token (start b f)))).
  { destruct (while_true fuel srv access_token (start b f)) as [items st|e st|st];
      simpl state_of; try exact H.
    destruct H as (st0 & (notes & Hout & Hall & Hlen) & Hfin).
    unfold finish in Hfin. inversion Hfin; subst. exists notes. simpl. auto. }
  destruct Hfinal as (notes & Hout & Hall & Hlen). exists notes.
  split; [|auto]. rewrite Hout. unfold start; simpl stdout. now rewrite <- app_assoc.
Qed.

(** ** Responses of the wrong shape *)

(** X4. A response whose body is JSON but not an object, or whose [list]
    field is anything but an object (an array, even the empty array, among
    them), does not end the run as complete: [AttributeError] leaves
    [fetch_pocket_items], with the offset, the items and the checkpoint as
    they were before the request. *)
Theorem list_of_wrong_shape_is_fatal (fuel : nat) (srv : server) (access_token : string)
    (st : state) (r : response) (log : list form) (data : pyval) :
  try_post srv (sent st) (payload access_token (batch_size st) (offset st)) = (inr r, log) ->
  json r = Some data ->
  match data with
  | PDict d => exists v, field "list" d = Some v /\ is_dict v = false
  | _ => True
  end ->
  while_true (S fuel) srv access_token st =
  Raised AttributeError
         {| batch_size := batch_size st; offset := offset st;
            all_items := all_items st; checkpoint := checkpoint st;
            sent := log; stdout := stdout st; naps := naps st |}.
Proof.
  intros Hpost Hj Hshape. simpl. unfold loop_body. rewrite Hpost, Hj.
  assert (Hb : batch_of data = Raise AttributeError).
  { destruct data; try reflexivity.
    destruct Hshape as (v & Hv & Hnd). unfold batch_of, get. rewrite Hv. simpl.
    destruct v; try reflexivity. discriminate Hnd. }
  now rewrite Hb.
Qed.

Lemma list_of_wrong_shape_is_fatal_witness :
  exists st,
    fetch_pocket_items 1 (answers 200 (Some (PDict [("list", PList []); ("total", PInt 0)])))
      (Some "30") "token" 30
    = Raised AttributeError st
    /\ checkpoint st = Some "30" /\ offset st = 30.
Proof.
  eexists. split.
  - apply (list_of_wrong_shape_is_fatal 0
             (answers 200 (Some (PDict [("list", PList []); ("total", PInt 0)])))
             "token" (start 30 (Some "30"))
             {| status_code := 200;
                json := Some (PDict [("list", PList []); ("total", PInt 0)]) |}
             [payload "token" 30 30]
             (PDict [("list", PList []); ("total", PInt 0)]) eq_refl eq_refl).
    exists (PList []). split; reflexivity.
  - split; reflexivity.
Defined.

(** X5. A page with items whose [total] cannot be turned into an integer
    raises only after the page was merged: the exception leaves
    [fetch_pocket_items] when the offset and the checkpoint already count the
    items of that page, so a later run resumes after them although this run
    never returned them. *)
Theorem bad_total_raises_after_checkpoint (fuel : nat) (srv : server)
    (access_token : string) (st : state) (r : response) (log : list form)
    (data : pyval) (batch : list pyval) (e : exn) :
  try_post srv (sent st) (payload access_token (batch_size st) (offset st)) = (inr r, log) ->
  json r = Some data ->
  batch_of data = Ok batch ->
  batch <> [] ->
  total_of data (offset st + Z.of_nat (List.length batch)) = Raise e ->
  exists st',
    while_true (S fuel) srv access_token st = Raised e st'
    /\ all_items st' = all_items st ++ batch
    /\ _read_checkpoint (checkpoint st') = offset st + Z.of_nat (List.length batch)
    /\ offset (start (batch_size st) (checkpoint st'))
       = offset st + Z.of_nat (List.length batch).
Proof.
  intros Hpost Hj Hb Hne Ht. simpl.
  rewrite (loop_body_page srv access_token st r log data batch Hpost Hj Hb Hne).
  cbv zeta. rewrite Ht. eexists. split; [reflexivity|]. simpl.
  unfold _write_checkpoint, _read_checkpoint. rewrite py_int_py_str. auto.
Qed.

Lemma bad_total_raises_after_checkpoint_witness :
  let body := PDict [("list", PDict [("1", PStr "a"); ("2", PStr "b")]);
                     ("total", PStr "many")] in
  exists st,
    fetch_pocket_items 1 (answers 200 (Some body)) None "token" 30 = Raised ValueError st
    /\ all_items st = [PStr "a"; PStr "b"]
    /\ _read_checkpoint (checkpoint st) = 2.
Proof.
  intros body.
  destruct (bad_total_raises_after_checkpoint 0 (answers 200 (Some body)) "token"
              (start 30 None) {| status_code := 200; json := Some body |}
              [payload "token" 30 0] body [PStr "a"; PStr "b"] ValueError
              eq_refl eq_refl eq_refl)
    as (st & Hrun & Hitems & Hck & _); [discriminate|reflexivity|].
  exists st. split; [exact Hrun|]. split; [exact Hitems|exact Hck].
Defined.

(** ** Interrupted and resumed runs *)

Lemma firstn_more {A : Type} (a b : nat) (l : list A) :
  firstn a l ++ firstn b (skipn a l) = firstn (a + b) l.
Proof.
  revert l. induction a as [|a IH]; intros l; simpl; [reflexivity|].
  destruct l as [|x l]; simpl.
  - now rewrite firstn_nil.
  - now rewrite IH.
Qed.

Section Service.

Variable coll : collection.
Variable access_token : string.
Variable P : Z.
Hypothesis P_pos : 1 <= P.

Let N : nat := List.length coll.
Let size : nat := Z.to_nat P.

Lemma remote_reply i (o : nat) :
  remote coll i (payload access_token P (Z.of_nat o)) = Reply (page_of coll size o).
Proof.
  unfold remote, page_of. rewrite payload_offset, payload_count, !py_int_py_str.
  now rewrite Nat2Z.id.
Qed.

(** A pass that receives the page at [o], whoever serves it. *)
Lemma page_pass srv st (o : nat) log :
  offset st = Z.of_nat o ->
  batch_size st = P ->
  (o < N)%nat ->
  try_post srv (sent st) (payload access_token (batch_size st) (offset st))
    = (inr (page_of coll size o), log) ->
  exists st2,
    all_items st2 = all_items st ++ map snd (firstn size (skipn o coll))
    /\ offset st2 = Z.of_nat (Nat.min (o + size) N)
    /\ batch_size st2 = P
    /\ sent st2 = log
    /\ loop_body srv access_token st
       = if (N <=? o + size)%nat then Break st2 else Continue st2.
Proof.
  intros Ho Hb Hlt Hpost.
  assert (Hne : map snd (firstn size (skipn o coll)) <> []).
  { intros Hnil. apply (f_equal (@List.length _)) in Hnil.
    rewrite length_map, length_firstn, length_skipn in Hnil.
    simpl in Hnil. subst size N. lia. }
  rewrite (loop_body_page srv access_token st _ _ _ _ Hpost eq_refl eq_refl Hne).
  cbv zeta. unfold total_of, get; simpl field; simpl bind.
  rewrite length_map, length_firstn, length_skipn, Ho.
  eexists. split; [|split; [|split; [|split]]].
  5: { destruct (Nat.leb_spec N (o + size)) as [Hle|Hgt].
       - replace (_ >=? _) with true by (symmetry; apply Z.geb_le; subst N; lia).
         reflexivity.
       - replace (_ >=? _) with false; [reflexivity|].
         symmetry. rewrite Z.geb_leb. apply Z.leb_gt. subst N. lia. }
  - reflexivity.
  - simpl. subst N size. lia.
  - simpl. assumption.
  - reflexivity.
Qed.

(** While a run against the collection is in the loop, it has merged a
    prefix of the collection and its offset is short of the end. *)
Lemma remote_running k : forall st0 st (o0 : nat),
  offset st0 = Z.of_nat o0 ->
  batch_size st0 = P ->
  (o0 < N)%nat ->
  while_true k (remote coll) access_token st0 = Running st ->
  exists o : nat,
    offset st = Z.of_nat o /\ (o0 <= o < N)%nat /\ batch_size st = P
    /\ all_items st = all_items st0 ++ map snd (firstn (o - o0) (skipn o0 coll)).
Proof.
  induction k as [|k IH]; intros st0 st o0 Ho Hb Hlt Hrun; simpl in Hrun.
  - inversion Hrun; subst. exists o0. rewrite Nat.sub_diag. simpl.
    rewrite app_nil_r. repeat split; auto; lia.
  - destruct (remote_pass coll access_token P P_pos st0 o0 Ho Hb Hlt)
      as (st2 & Hitems & Hoff & Hb2 & _ & Hbody).
    rewrite Hbody in Hrun. fold N size in Hrun, Hoff, Hitems.
    destruct (Nat.leb_spec N (o0 + size)) as [Hle|Hgt]; [discriminate Hrun|].
    assert (Hoff2 : offset st2 = Z.of_nat (o0 + size)) by (rewrite Hoff; f_equal; lia).
    destruct (IH st2 st (o0 + size)%nat Hoff2 Hb2 Hgt Hrun) as (o & Hoff' & Hrange & Hb' & Hall).
    exists o. split; [assumption|]. split; [lia|]. split; [assumption|].
    rewrite Hall, Hitems, <- app_assoc, <- map_app. do 2 f_equal.
    replace (skipn (o0 + size) coll) with (skipn size (skipn o0 coll))
      by (rewrite skipn_skipn; f_equal; lia).
    rewrite firstn_more. f_equal. lia.
Qed.

End Service.

(** X6. Interrupting and resuming: when a run against a collection is cut
    while it is still in the loop, a second run started from the checkpoint
    the first one left returns exactly the items from the offset the first
    one had reached, and the items the first run had accumulated followed by
    the items the second run returns are the whole collection, each item
    once. *)
Theorem interrupted_then_resumed (coll : collection) (access_token : string) (P : Z)
    (k : nat) (st : state) :
  1 <= P <= 30 ->
  fetch_pocket_items k (remote coll) None access_token P = Running st ->
  exists fuel st',
    fetch_pocket_items fuel (remote coll) (checkpoint st) access_token P
    = Returned (map snd (skipn (Z.to_nat (offset st)) coll)) st'
    /\ all_items st ++ map snd (skipn (Z.to_nat (offset st)) coll) = map snd coll
    /\ checkpoint st' = None.
Proof.
  intros [Hlo Hhi] Hrun.
  pose proof (run_bookkeeping k (remote coll) None access_token P) as Hbk.
  rewrite Hrun in Hbk. destruct Hbk as (Hck & _ & _).
  unfold fetch_pocket_items in *.
  destruct (start_uncapped P None) as (Hb & Ho & Hi & Hs); [unfold MAX_BATCH; lia|].
  destruct (start_uncapped P (checkpoint st)) as (Hb' & Ho' & Hi' & _);
    [unfold MAX_BATCH; lia|].
  simpl in Ho. rewrite Hck in Ho'.
  destruct (Nat.eq_dec (List.length coll) 0) as [Hzero|Hsome].
  - pose proof Hzero as Hnil. apply length_zero_iff_nil in Hnil. subst coll.
    destruct k as [|k].
    + simpl in Hrun. inversion Hrun; subst st.
      destruct (remote_empty [] access_token P 0 (start P (checkpoint (start P None)))
                  eq_refl eq_refl Hb') as (st' & Hret & _ & _ & Hnone).
      exists 1%nat, st'. rewrite Hret, Hi', Hi, skipn_nil. simpl. auto.
    + destruct (remote_empty [] access_token P k (start P None) eq_refl Ho Hb)
        as (st' & Hret & _).
      rewrite Hret in Hrun. discriminate Hrun.
  - destruct (remote_running coll access_token P Hlo k (start P None) st 0%nat Ho Hb
                ltac:(lia) Hrun) as (o & Hoff & Hrange & _ & Hall).
    rewrite Hoff in *. rewrite Nat2Z.id.
    destruct (remote_run coll access_token P Hlo (List.length coll) o
                (start P (checkpoint st)) 0 ltac:(lia) ltac:(lia) Ho' Hb')
      as (st' & Hret & _ & _ & Hnone).
    eexists _, st'. rewrite Hret, Hi'. simpl app. split; [reflexivity|]. split; [|assumption].
    rewrite Hall, Hi, Nat.sub_0_r. simpl. rewrite <- map_app. f_equal.
    apply firstn_skipn.
Qed.

Lemma interrupted_then_resumed_witness :
  exists st fuel st',
    fetch_pocket_items 2 (remote (numbered 65)) None "token" 30 = Running st
    /\ checkpoint st = Some "60"
    /\ fetch_pocket_items fuel (remote (numbered 65)) (checkpoint st) "token" 30
       = Returned (map snd (skipn 60 (numbered 65))) st'
    /\ all_items st ++ map snd (skipn 60 (numbered 65)) = map snd (numbered 65).
Proof.
  pose (st := state_of (fetch_pocket_items 2 (remote (numbered 65)) None "token" 30)).
  assert (Hrun : fetch_pocket_items 2 (remote (numbered 65)) None "token" 30 = Running st)
    by (vm_compute; reflexivity).
  destruct (interrupted_then_resumed (numbered 65) "token" 30 2 st ltac:(lia) Hrun)
    as (fuel & st' & Hret & Hall & _).
  exists st, fuel, st'. split; [exact Hrun|]. split; [reflexivity|].
  split; [exact Hret|exact Hall].
Defined.

(** ** Riding out an outage *)

Section Outage.

Variable coll : collection.
Variable access_token : string.
Variable P : Z.
Hypothesis P_pos : 1 <= P.
Variable n : nat.

Let N : nat := List.length coll.
Let size : nat := Z.to_nat P.
Let srv : server := after_outage n (remote coll).

(** During the outage a call either spends its whole budget without reply,
    and then the outage lasts at least as long as the log it leaves, or gets
    through to the collection. *)
Lemma send_through_outage retries : forall log (o : nat),
  let p := payload access_token P (Z.of_nat o) in
  (send retries srv log p = (inl ConnectionError, log ++ repeat p (S retries))
   /\ (List.length log + S retries <= n)%nat)
  \/ (exists k, send retries srv log p = (inr (page_of coll size o), log ++ repeat p (S k))).
Proof.
  induction retries as [|r IH]; intros log o p; simpl send;
    change (srv (List.length log) p)
      with (if (List.length log <? n)%nat then NoReply
            else remote coll (List.length log) p).
  - destruct (Nat.ltb_spec (List.length log) n) as [Hin|Hout].
    + left. split; [reflexivity|lia].
    + right. exists O. subst p. rewrite (remote_reply coll access_token P). reflexivity.
  - destruct (Nat.ltb_spec (List.length log) n) as [Hin|Hout].
    + destruct (IH (log ++ [p]) o) as [[Hsend Hlen]|[k Hsend]]; fold p in Hsend.
      * left. rewrite Hsend. rewrite length_app in Hlen. simpl in Hlen.
        split; [|lia]. f_equal. rewrite <- app_assoc. reflexivity.
      * right. exists (S k). rewrite Hsend. f_equal.
        rewrite <- app_assoc. reflexivity.
    + right. exists O. subst p. rewrite (remote_reply coll access_token P). reflexivity.
Qed.

Lemma try_post_through_outage log (o : nat) :
  let p := payload access_token P (Z.of_nat o) in
  (try_post srv log p = (inl ConnectionError, log ++ repeat p 6)
   /\ (List.length log + 6 <= n)%nat)
  \/ (exists k, try_post srv log p = (inr (page_of coll size o), log ++ repeat p (S k))).
Proof.
  intros p. unfold try_post, _post.
  destruct (send_through_outage retry_total log o) as [[Hsend Hlen]|[k Hsend]];
    fold p in Hsend; rewrite Hsend.
  - left. split; [reflexivity|exact Hlen].
  - right. exists k. reflexivity.
Qed.

Lemma outage_run mu : forall (o : nat) st,
  offset st = Z.of_nat o ->
  batch_size st = P ->
  (o < N)%nat ->
  ((N - o) + (n - List.length (sent st)) <= mu)%nat ->
  exists fuel st',
    while_true fuel srv access_token st
    = Returned (all_items st ++ map snd (skipn o coll)) st'
    /\ offset st' = Z.of_nat N
    /\ checkpoint st' = None.
Proof.
  induction mu as [|mu IH]; intros o st Ho Hb Hlt Hmu; [lia|].
  destruct (try_post_through_outage (sent st) o) as [[Hpost Hlen]|[k Hpost]];
    rewrite <- Ho, <- Hb in Hpost.
  - pose proof (loop_body_hiccup srv access_token st _ _ Hpost) as Hbody.
    match type of Hbody with _ = Continue ?s => set (st1 := s) in * end.
    destruct (IH o st1 Ho Hb Hlt) as (fuel & st' & Hrun & Hend).
    { subst st1. cbn [sent]. rewrite length_app, repeat_length. lia. }
    exists (S fuel), st'. simpl. rewrite Hbody. auto.
  - destruct (page_pass coll access_token P P_pos srv st o _ Ho Hb Hlt Hpost)
      as (st2 & Hitems & Hoff & Hb2 & Hsent & Hbody).
    fold N size in Hitems, Hoff, Hbody.
    destruct (Nat.leb_spec N (o + size)) as [Hle|Hgt].
    + exists 1%nat. simpl. rewrite Hbody. unfold finish. eexists.
      split; [|split].
      * rewrite Hitems, firstn_all2 by (rewrite length_skipn; fold N; lia). reflexivity.
      * cbn [offset]. rewrite Hoff. f_equal. lia.
      * reflexivity.
    + assert (Hoff2 : offset st2 = Z.of_nat (o + size)) by (rewrite Hoff; f_equal; lia).
      destruct (IH (o + size)%nat st2 Hoff2 Hb2 Hgt) as (fuel & st' & Hrun & Hend).
      { rewrite Hsent, length_app, repeat_length. subst size. lia. }
      exists (S fuel), st'. simpl. rewrite Hbody. split; [|assumption].
      rewrite Hrun, Hitems, <- app_assoc, <- map_app. do 3 f_equal.
      rewrite <- (firstn_skipn size (skipn o coll)) at 2.
      f_equal. rewrite skipn_skipn. f_equal. lia.
Qed.

Lemma outage_empty mu : forall st,
  coll = [] ->
  offset st = 0 ->
  batch_size st = P ->
  (n - List.length (sent st) <= mu)%nat ->
  exists fuel st',
    while_true fuel srv access_token st = Returned (all_items st) st'
    /\ offset st' = 0
    /\ checkpoint st' = None.
Proof.
  induction mu as [|mu IH]; intros st Hnil Ho Hb Hmu;
    (destruct (try_post_through_outage (sent st) 0) as [[Hpost Hlen]|[k Hpost]];
     change (Z.of_nat 0) with 0 in Hpost; rewrite <- Ho, <- Hb in Hpost).
  - lia.
  - exists 1%nat. simpl.
    rewrite (loop_body_empty srv access_token st _ _ _ Hpost eq_refl);
      [|rewrite Hnil; now destruct size].
    unfold finish. eexists. repeat split. assumption.
  - pose proof (loop_body_hiccup srv access_token st _ _ Hpost) as Hbody.
    match type of Hbody with _ = Continue ?s => set (st1 := s) in * end.
    destruct (IH st1 Hnil Ho Hb) as (fuel & st' & Hrun & Hend).
    { subst st1. cbn [sent]. rewrite length_app, repeat_length. lia. }
    exists (S fuel), st'. simpl. rewrite Hbody. auto.
  - exists 1%nat. simpl.
    rewrite (loop_body_empty srv access_token st _ _ _ Hpost eq_refl);
      [|rewrite Hnil; now destruct size].
    unfold finish. eexists. repeat split. assumption.
Qed.

End Outage.

(** X7. Riding out an outage: however many requests in a row go unanswered
    at first, a run against a collection of [N] items still returns the [N]
    items in order, with the offset at [N] and the checkpoint unlinked: the
    driver keeps asking until the remote end is back. *)
Theorem outage_survived (n : nat) (coll : collection) (access_token : string) (P : Z) :
  1 <= P <= 30 ->
  exists fuel st,
    fetch_pocket_items fuel (after_outage n (remote coll)) None access_token P
    = Returned (map snd coll) st
    /\ offset st = Z.of_nat (List.length coll)
    /\ checkpoint st = None.
Proof.
  intros [Hlo Hhi]. unfold fetch_pocket_items.
  destruct (start_uncapped P None) as (Hb & Ho & Hi & Hs); [unfold MAX_BATCH; lia|].
  simpl in Ho.
  destruct (Nat.eq_dec (List.length coll) 0) as [Hzero|Hsome].
  - pose proof Hzero as Hnil. apply length_zero_iff_nil in Hnil.
    destruct (outage_empty coll access_token P Hlo n n (start P None) Hnil Ho Hb ltac:(lia))
      as (fuel & st & Hrun & Hoff & Hck).
    exists fuel, st. rewrite Hrun, Hi, Hzero, Hnil. auto.
  - destruct (outage_run coll access_token P Hlo n (List.length coll + n) 0%nat
                (start P None) Ho Hb ltac:(lia) ltac:(lia))
      as (fuel & st & Hrun & Hoff & Hck).
    exists fuel, st. rewrite Hrun, Hi. simpl. auto.
Qed.

Lemma outage_survived_witness :
  exists fuel st,
    fetch_pocket_items fuel (after_outage 20 (remote (numbered 65))) None "token" 30
    = Returned (map snd (numbered 65)) st
    /\ offset st = 65.
Proof.
  destruct (outage_survived 20 (numbered 65) "token" 30 ltac:(lia))
    as (fuel & st & Hrun & Hoff & _).
  exists fuel, st. split; [exact Hrun|exact Hoff].
Defined.

(** ** The authorization calls give up *)

(** X8. The authorization calls have no retry loop of their own: against a
    remote end that answers every request with a status of the force list,
    [_request_token] and [_exchange_for_access_token] each raise an
    [HTTPError] after putting their request on the wire six times, where the
    fetch loop would go on asking. *)
Theorem authorization_gives_up (srv : server) (log : list form) (request_token : string) :
  always_forced srv ->
  (exists s,
     forced s = true
     /\ _request_token srv log
        = (inl (Request (HTTPError s)),
           log ++ repeat [("consumer_key", CONSUMER_KEY); ("redirect_uri", REDIRECT_URI)] 6))
  /\ (exists s,
        forced s = true
        /\ _exchange_for_access_token srv log request_token
           = (inl (Request (HTTPError s)),
              log ++ repeat [("consumer_key", CONSUMER_KEY); ("code", request_token)] 6)).
Proof.
  intros Hsrv. split.
  - destruct (send_forced srv retry_total log
                [("consumer_key", CONSUMER_KEY); ("redirect_uri", REDIRECT_URI)] Hsrv)
      as (r & Hsend & Hf).
    exists (status_code r). split; [assumption|].
    unfold _request_token, _post. rewrite Hsend.
    now rewrite (rejected_raises r (forced_rejected _ Hf)).
  - destruct (send_forced srv retry_total log
                [("consumer_key", CONSUMER_KEY); ("code", request_token)] Hsrv)
      as (r & Hsend & Hf).
    exists (status_code r). split; [assumption|].
    unfold _exchange_for_access_token, _post. rewrite Hsend.
    now rewrite (rejected_raises r (forced_rejected _ Hf)).
Qed.

Lemma authorization_gives_up_witness :
  exists s log',
    _request_token (always 503) [] = (inl (Request (HTTPError s)), log')
    /\ List.length log' = 6%nat.
Proof.
  destruct (authorization_gives_up (always 503) [] "code" always_503_forced)
    as [(s & _ & Hcall) _].
  eexists s, _. split; [exact Hcall|reflexivity].
Defined.

(** ** The extraction loop *)

Lemma field_dict_set_same key v d : field key (dict_set key v d) = Some v.
Proof.
  induction d as [|[k x] rest IH]; simpl.
  - now rewrite String.eqb_refl.
  - destruct (String.eqb k key) eqn:E; simpl; now rewrite E.
Qed.

Lemma field_dict_set_other key key' v d :
  key <> key' -> field key' (dict_set key v d) = field key' d.
Proof.
  intros Hne. induction d as [|[k x] rest IH]; simpl.
  - destruct (String.eqb_spec key key'); [contradiction|reflexivity].
  - destruct (String.eqb_spec k key) as [->|Hk]; simpl.
    + destruct (String.eqb_spec key key'); [contradiction|reflexivity].
    + now rewrite IH.
Qed.

Lemma extract_all_accounts extract : forall items i enriched failures enriched' failures',
  extract_all extract i items enriched failures = inr (enriched', failures') ->
  Forall has_content enriched ->
  (List.length enriched' + List.length failures'
   = List.length enriched + List.length failures + List.length items)%nat
  /\ Forall has_content enriched'.
Proof.
  induction items as [|itm rest IH]; intros i enriched failures enriched' failures' H Hall;
    simpl in H.
  - inversion H; subst. split; [simpl; lia|assumption].
  - destruct itm as [| | | | |d]; try discriminate H.
    destruct (truthy (url_of d)).
    + destruct (extract i (url_of d)) as [[html text]|].
      * apply IH in H.
        -- destruct H as [Hlen Hc]. split; [|assumption].
           rewrite Hlen, length_app. simpl. lia.
        -- apply Forall_app. split; [assumption|]. constructor; [|constructor].
           exists (dict_set "content_text" (PStr text) (dict_set "content_html" (PStr html) d)),
                  html, text.
           split; [reflexivity|]. split.
           ++ rewrite field_dict_set_other by discriminate. apply field_dict_set_same.
           ++ apply field_dict_set_same.
      * apply IH in H; [|assumption]. destruct H as [Hlen Hc]. split; [|assumption].
        rewrite Hlen, length_app. simpl. lia.
    + destruct (field "item_id" d); [|discriminate H].
      apply IH in H; [|assumption]. destruct H as [Hlen Hc]. split; [|assumption].
      rewrite Hlen, length_app. simpl. lia.
Qed.

(** X9. Every item is accounted for once: when the extraction loop of
    [main] comes to its end, the items it enriched and the failures it noted
    are together as many as the items it was given, and each enriched item
    is a dictionary that holds both [content_html] and [content_text]. *)
Theorem every_item_accounted_for (extract : nat -> pyval -> option (string * string))
    (items enriched : list pyval) (failures : list failure) :
  extract_all extract 0 items [] [] = inr (enriched, failures) ->
  (List.length enriched + List.length failures = List.length items)%nat
  /\ Forall has_content enriched.
Proof.
  intros H. apply extract_all_accounts in H; [|constructor]. simpl in H. exact H.
Qed.

Lemma every_item_accounted_for_witness :
  let items := [ PDict [("item_id", PStr "1"); ("resolved_url", PStr "https://a.example")];
                 PDict [("item_id", PStr "2"); ("resolved_url", PStr "");
                        ("given_url", PStr "https://b.example")];
                 PDict [("item_id", PStr "3")] ] in
  let extract := fun (i : nat) (_ : pyval) =>
                   if Nat.eqb i 0 then Some ("<p>a</p>", "a") else None in
  exists enriched failures,
    extract_all extract 0 items [] [] = inr (enriched, failures)
    /\ (List.length enriched + List.length failures = 3)%nat
    /\ failures = [ExtractFailed (PStr "https://b.example"); NoURL (PStr "3")].
Proof.
  intros items extract.
  pose (out := extract_all extract 0 items [] []).
  assert (Hout : out = inr ([PDict [("item_id", PStr "1");
                                    ("resolved_url", PStr "https://a.example");
                                    ("content_html", PStr "<p>a</p>");
                                    ("content_text", PStr "a")]],
                            [ExtractFailed (PStr "https://b.example"); NoURL (PStr "3")]))
    by reflexivity.
  eexists _, _. split; [exact Hout|].
  split; [exact (proj1 (every_item_accounted_for extract items _ _ Hout))|reflexivity].
Defined.

Lemma extract_all_completes extract : forall items i enriched failures,
  Forall identified items ->
  exists enriched' failures',
    extract_all extract i items enriched failures = inr (enriched', failures').
Proof.
  induction items as [|itm rest IH]; intros i enriched failures Hall; simpl.
  - eauto.
  - inversion Hall as [|? ? (d & -> & Hid) Hrest]; subst.
    destruct (truthy (url_of d)).
    + destruct (extract i (url_of d)) as [[html text]|]; apply IH; assumption.
    + destruct (field "item_id" d); [apply IH; assumption|congruence].
Qed.

(** X10. One article cannot stop the export: when every item is a
    dictionary with an [item_id], the extraction loop comes to its end
    whatever [extract_article] does, raising nothing for an item without URL
    or for an extraction that fails; without [item_id], an item that has no
    URL either makes the loop raise [KeyError]. *)
Theorem extraction_never_aborts (extract : nat -> pyval -> option (string * string))
    (items : list pyval) (d : list (string * pyval)) (rest : list pyval) :
  (Forall identified items ->
   exists enriched failures, extract_all extract 0 items [] [] = inr (enriched, failures))
  /\ (truthy (url_of d) = false ->
      field "item_id" d = None ->
      extract_all extract 0 (PDict d :: rest) [] [] = inl (KeyError "item_id")).
Proof.
  split.
  - apply extract_all_completes.
  - intros Hurl Hid. simpl. now rewrite Hurl, Hid.
Qed.

Lemma extraction_never_aborts_witness :
  (exists enriched failures,
     extract_all (fun _ _ => None) 0
       [PDict [("item_id", PInt 7); ("given_url", PStr "https://c.example")];
        PDict [("item_id", PInt 8)]] [] []
     = inr (enriched, failures))
  /\ extract_all (fun _ _ => None) 0 [PDict [("given_title", PStr "no id")]] [] []
     = inl (KeyError "item_id").
Proof.
  destruct (extraction_never_aborts (fun _ _ => None)
              [PDict [("item_id", PInt 7); ("given_url", PStr "https://c.example")];
               PDict [("item_id", PInt 8)]]
              [("given_title", PStr "no id")] []) as [Hok Hbad].
  split.
  - apply Hok. repeat constructor; eexists; (split; [reflexivity|discriminate]).
  - apply Hbad; reflexivity.
Defined.

(** X11. The [--limit] option: a positive limit keeps the first [limit]
    items, or all of them when there are fewer; a limit of zero is the same
    as no limit and keeps every item; a negative limit drops that many items
    from the end. *)
Theorem limit_keeps_a_prefix (z : Z) (items : list pyval) :
  limit_items None items = items
  /\ limit_items (Some 0) items = items
  /\ (0 < z ->
      limit_items (Some z) items = firstn (Z.to_nat z) items
      /\ List.length (limit_items (Some z) items)
         = Nat.min (Z.to_nat z) (List.length items))
  /\ (z < 0 ->
      limit_items (Some z) items = firstn (List.length items - Z.to_nat (- z)) items
      /\ List.length (limit_items (Some z) items)
         = (List.length items - Z.to_nat (- z))%nat).
Proof.
  split; [reflexivity|]. split; [reflexivity|]. split.
  - intros Hz. unfold limit_items.
    replace (z =? 0) with false by (symmetry; apply Z.eqb_neq; lia).
    replace (0 <? z) with true by (symmetry; apply Z.ltb_lt; lia).
    split; [reflexivity|apply length_firstn].
  - intros Hz. unfold limit_items.
    replace (z =? 0) with false by (symmetry; apply Z.eqb_neq; lia).
    replace (0 <? z) with false by (symmetry; apply Z.ltb_ge; lia).
    replace (Z.to_nat (Z.of_nat (List.length items) + z))
      with (List.length items - Z.to_nat (- z))%nat by lia.
    split; [reflexivity|]. rewrite length_firstn. lia.
Qed.

Lemma limit_keeps_a_prefix_witness :
  limit_items (Some 2) [PInt 1; PInt 2; PInt 3] = [PInt 1; PInt 2]
  /\ limit_items (Some (-1)) [PInt 1; PInt 2; PInt 3] = [PInt 1; PInt 2].
Proof.
  split.
  - exact (proj1 (proj1 (proj2 (proj2 (limit_keeps_a_prefix 2 [PInt 1; PInt 2; PInt 3])))
                    ltac:(lia))).
  - exact (proj1 (proj2 (proj2 (proj2 (limit_keeps_a_prefix (-1) [PInt 1; PInt 2; PInt 3])))
                    ltac:(lia))).
Defined.

(** ** Corrupt checkpoints *)

Lemma every_weaken (f g : ascii -> bool) s :
  (forall c, g c = true -> f c = true) -> every f s = false -> every g s = false.
Proof.
  intros Hfg. induction s as [|c r IH]; simpl; [discriminate|].
  intros H. apply andb_false_iff in H. apply andb_false_iff.
  destruct H as [Hc|Hr]; [left|right; auto].
  destruct (g c) eqn:E; [|reflexivity]. rewrite (Hfg c E) in Hc. discriminate.
Qed.

Lemma every_lstrip f s :
  (forall c, is_space c = true -> f c = true) ->
  every f s = false -> every f (lstrip s) = false.
Proof.
  intros Hsp. induction s as [|c r IH]; simpl; [discriminate|].
  intros H. destruct (is_space c) eqn:E; [|exact H].
  rewrite (Hsp c E) in H. simpl in H. auto.
Qed.

Lemma every_rstrip f s :
  (forall c, is_space c = true -> f c = true) ->
  every f s = false -> every f (rstrip s) = false.
Proof.
  intros Hsp. induction s as [|c r IH]; simpl; [discriminate|].
  intros H. destruct (f c) eqn:Hc.
  - simpl in H. specialize (IH H).
    destruct (rstrip r) as [|c' r'] eqn:E; [discriminate IH|].
    simpl. rewrite Hc. exact IH.
  - destruct (rstrip r) as [|c' r'].
    + destruct (is_space c) eqn:E; [rewrite (Hsp c E) in Hc; discriminate|].
      simpl. now rewrite Hc.
    + simpl. now rewrite Hc.
Qed.

Lemma digit_groups_chars s : forall prev ds,
  digit_groups prev s = Some ds -> every is_group_char s = true.
Proof.
  induction s as [|c r IH]; intros prev ds; simpl; [reflexivity|].
  unfold is_group_char at 1. destruct (is_digit c); simpl.
  - destruct (digit_groups SeenDigit r) eqn:E; [|discriminate]. intros _. eauto.
  - destruct (Ascii.eqb c "_"); [|discriminate].
    destruct prev; try discriminate. simpl. eauto.
Qed.

Lemma unsigned_literal_rejects s :
  every is_group_char s = false -> unsigned_literal s = None.
Proof.
  intros H. unfold unsigned_literal.
  destruct (digit_groups SeenNothing s) eqn:E; [|reflexivity].
  apply digit_groups_chars in E. congruence.
Qed.

Lemma group_char_numeric c : is_group_char c = true -> is_numeric c = true.
Proof.
  unfold is_group_char, is_numeric. intros H. apply orb_prop in H.
  destruct H as [->| ->]; [reflexivity|]. now rewrite !orb_true_r.
Qed.

Lemma space_numeric c : is_space c = true -> is_numeric c = true.
Proof. unfold is_numeric. intros ->. now rewrite orb_true_r. Qed.

Lemma int_of_ascii_rejects t : every is_numeric t = false -> int_of_ascii t = None.
Proof.
  intros H. unfold int_of_ascii, strip.
  pose proof (every_rstrip is_numeric _ space_numeric
                (every_lstrip is_numeric t space_numeric H)) as Hs.
  destruct (rstrip (lstrip t)) as [|c r]; [reflexivity|].
  assert (Hall : every is_group_char (String c r) = false)
    by (apply (every_weaken is_numeric); [apply group_char_numeric|exact Hs]).
  destruct (Ascii.eqb c "-") eqn:Hminus; [|destruct (Ascii.eqb c "+") eqn:Hplus].
  - apply Ascii.eqb_eq in Hminus. subst c. simpl in Hs.
    rewrite (unsigned_literal_rejects r); [reflexivity|].
    apply (every_weaken is_numeric); [apply group_char_numeric|exact Hs].
  - apply Ascii.eqb_eq in Hplus. subst c. simpl in Hs.
    apply unsigned_literal_rejects.
    apply (every_weaken is_numeric); [apply group_char_numeric|exact Hs].
  - now apply unsigned_literal_rejects.
Qed.

Lemma continuation_numeric c x : continuation c = Some x -> may_be_numeric c = true.
Proof.
  unfold continuation, may_be_numeric.
  destruct ((128 <=? N_of_ascii c) && (N_of_ascii c <? 192))%N eqn:E; [|discriminate].
  intros _. apply andb_prop in E. destruct E as [Hlo _]. apply N.leb_le in Hlo.
  replace (N_of_ascii c <? 128)%N with false by (symmetry; apply N.ltb_ge; lia).
  reflexivity.
Qed.

Lemma lead_numeric c : (N_of_ascii c <? 128)%N = false -> may_be_numeric c = true.
Proof. unfold may_be_numeric. now intros ->. Qed.

(** Decoding keeps every ASCII byte of a text as a code point of its own. *)
Lemma utf8_decode_keeps_junk n : forall s cps,
  (String.length s <= n)%nat ->
  utf8_decode s = Some cps ->
  every may_be_numeric s = false ->
  existsb junk_code cps = true.
Proof.
  induction n as [|n IH]; intros s cps Hlen Hdec Hjunk.
  - destruct s; [discriminate Hjunk|simpl in Hlen; lia].
  - destruct s as [|c0 r0]; [discriminate Hjunk|].
    simpl in Hlen. simpl in Hdec.
    destruct (N_of_ascii c0 <? 128)%N eqn:H0.
    + destruct (utf8_decode r0) as [cps0|] eqn:E; [|discriminate Hdec].
      simpl in Hdec. inversion Hdec; subst cps. simpl existsb.
      simpl in Hjunk. apply andb_false_iff in Hjunk. destruct Hjunk as [Hc|Hr].
      * unfold junk_code. rewrite H0, ascii_N_embedding.
        unfold may_be_numeric in Hc. rewrite H0 in Hc. simpl in Hc. now rewrite Hc.
      * rewrite (IH r0 cps0 ltac:(lia) E Hr). apply orb_true_r.
    + simpl in Hjunk. rewrite (lead_numeric c0 H0) in Hjunk. simpl in Hjunk.
      destruct (N_of_ascii c0 <? 194)%N; [discriminate Hdec|].
      destruct (N_of_ascii c0 <? 224)%N.
      { destruct r0 as [|c1 r1]; [discriminate Hdec|].
        destruct (continuation c1) as [x1|] eqn:E1; [|discriminate Hdec].
        destruct (utf8_decode r1) as [cps1|] eqn:E; [|discriminate Hdec].
        simpl in Hdec. inversion Hdec; subst cps.
        simpl in Hjunk, Hlen. rewrite (continuation_numeric _ _ E1) in Hjunk.
        simpl existsb. rewrite (IH r1 cps1 ltac:(lia) E Hjunk). apply orb_true_r. }
      destruct (N_of_ascii c0 <? 240)%N.
      { destruct r0 as [|c1 [|c2 r2]]; try discriminate Hdec.
        destruct (continuation c1) as [x1|] eqn:E1; [|discriminate Hdec].
        destruct (continuation c2) as [x2|] eqn:E2; [|discriminate Hdec].
        cbv zeta in Hdec.
        match type of Hdec with (if ?b then _ else _) = _ => destruct b end;
          [discriminate Hdec|].
        destruct (utf8_decode r2) as [cps2|] eqn:E; [|discriminate Hdec].
        simpl in Hdec. inversion Hdec; subst cps.
        simpl in Hjunk, Hlen.
        rewrite (continuation_numeric _ _ E1), (continuation_numeric _ _ E2) in Hjunk.
        simpl existsb. rewrite (IH r2 cps2 ltac:(lia) E Hjunk). apply orb_true_r. }
      destruct (N_of_ascii c0 <? 245)%N; [|discriminate Hdec].
      destruct r0 as [|c1 [|c2 [|c3 r3]]]; try discriminate Hdec.
      destruct (continuation c1) as [x1|] eqn:E1; [|discriminate Hdec].
      destruct (continuation c2) as [x2|] eqn:E2; [|discriminate Hdec].
      destruct (continuation c3) as [x3|] eqn:E3; [|discriminate Hdec].
      cbv zeta in Hdec.
      match type of Hdec with (if ?b then _ else _) = _ => destruct b end;
        [discriminate Hdec|].
      destruct (utf8_decode r3) as [cps3|] eqn:E; [|discriminate Hdec].
      simpl in Hdec. inversion Hdec; subst cps.
      simpl in Hjunk, Hlen.
      rewrite (continuation_numeric _ _ E1), (continuation_numeric _ _ E2),
              (continuation_numeric _ _ E3) in Hjunk.
      simpl existsb. rewrite (IH r3 cps3 ltac:(lia) E Hjunk). apply orb_true_r.
Qed.

Lemma space_is_numeric : is_numeric " " = true.
Proof. reflexivity. Qed.

(** What [int] makes of a text with such a code point holds it still. *)
Lemma to_ascii_keeps_junk cps : forall t,
  to_ascii cps = Some t -> existsb junk_code cps = true -> every is_numeric t = false.
Proof.
  induction cps as [|cp rest IH]; intros t Ht Hjunk; [discriminate Hjunk|].
  simpl in Ht, Hjunk.
  destruct (cp <? 127)%N eqn:Hplain.
  - destruct (to_ascii rest) as [t'|] eqn:E; [|discriminate Ht].
    simpl in Ht. inversion Ht; subst t. simpl.
    apply orb_prop in Hjunk. destruct Hjunk as [Hc|Hr].
    + unfold junk_code in Hc. apply andb_prop in Hc. destruct Hc as [_ Hc].
      apply negb_true_iff in Hc. now rewrite Hc.
    + rewrite (IH t' eq_refl Hr). first [apply andb_false_r | reflexivity].
  - assert (Hrest : existsb junk_code rest = true).
    { apply orb_prop in Hjunk. destruct Hjunk as [Hc|Hr]; [|exact Hr].
      unfold junk_code in Hc. apply andb_prop in Hc. destruct Hc as [Hlt _].
      apply N.ltb_lt in Hlt. apply N.ltb_ge in Hplain.
      assert (cp = 127%N) by lia. subst cp. discriminate Ht. }
    destruct (is_unicode_space cp).
    + destruct (to_ascii rest) as [t'|] eqn:E; [|discriminate Ht].
      simpl in Ht. inversion Ht; subst t. simpl.
      rewrite (IH t' eq_refl Hrest). first [apply andb_false_r | reflexivity].
    + destruct (unicode_decimal cp); [|discriminate Ht].
      destruct (to_ascii rest) as [t'|] eqn:E; [|discriminate Ht].
      simpl in Ht. inversion Ht; subst t. simpl.
      rewrite (IH t' eq_refl Hrest). first [apply andb_false_r | reflexivity].
Qed.

(** X12. A corrupt checkpoint is read as zero: whenever the file holds an
    ASCII character that is no digit, no whitespace, no sign and no
    underscore (a letter, a decimal point, a comma, a control character),
    whatever else it holds, [_read_checkpoint] gives [0], so the next run
    starts over from the first page. *)
Theorem corrupt_checkpoint_reads_zero (text : string) :
  every may_be_numeric text = false -> _read_checkpoint (Some text) = 0.
Proof.
  intros H. unfold _read_checkpoint.
  assert (Hnone : py_int text = None); [|now rewrite Hnone].
  unfold py_int.
  destruct (utf8_decode text) as [cps|] eqn:Hdec; [|reflexivity].
  destruct (to_ascii cps) as [t|] eqn:Hasc; [|reflexivity].
  apply int_of_ascii_rejects.
  apply (to_ascii_keeps_junk cps t Hasc).
  exact (utf8_decode_keeps_junk _ text cps (Nat.le_refl _) Hdec H).
Qed.

Lemma corrupt_checkpoint_reads_zero_witness :
  _read_checkpoint (Some "60.0") = 0 /\ _read_checkpoint (Some "offset=60") = 0.
Proof.
  split; apply corrupt_checkpoint_reads_zero; reflexivity.
Defined.

(** ** The requests of a run *)

Lemma sorted_then_repeat (l : list Z) (x : Z) (k : nat) :
  StronglySorted Z.le l ->
  Forall (fun y => y <= x) l ->
  StronglySorted Z.le (l ++ repeat x k).
Proof.
  intros Hs Hle. induction l as [|a l IH]; simpl.
  - induction k as [|k IHk]; simpl; constructor; [assumption|].
    apply Forall_repeat. lia.
  - inversion Hs; subst. inversion Hle; subst. constructor; [auto|].
    apply Forall_app. split; [assumption|]. now apply Forall_repeat.
Qed.

Lemma map_repeat {A B : Type} (g : A -> B) (x : A) (k : nat) :
  map g (repeat x k) = repeat (g x) k.
Proof. induction k; simpl; congruence. Qed.

(** X13. The requests of a run, retries included, are all the same form but
    for the offset: the form for the access token given and the batch size
    once capped; the offsets they ask for never go back, and lie between the
    offset read from the checkpoint and the offset the run has reached. *)
Theorem requests_in_order (fuel : nat) (srv : server) (f : checkpoint_file)
    (access_token : string) (b : Z) :
  let st := state_of (fetch_pocket_items fuel srv f access_token b) in
  exists offsets,
    sent st = map (payload access_token (if b >? MAX_BATCH then MAX_BATCH else b)) offsets
    /\ StronglySorted Z.le offsets
    /\ Forall (fun o => _read_checkpoint f <= o <= offset st) offsets.
Proof.
  intros st. subst st. unfold fetch_pocket_items.
  set (bs := if b >? MAX_BATCH then MAX_BATCH else b).
  set (Q := fun st : state =>
              batch_size st = bs /\ _read_checkpoint f <= offset st
              /\ exists offsets,
                   sent st = map (payload access_token bs) offsets
                   /\ StronglySorted Z.le offsets
                   /\ Forall (fun o => _read_checkpoint f <= o <= offset st) offsets).
  assert (Hstep : forall st st', Q st -> advances access_token st st' -> Q st').
  { intros st st' (Hb & Hlo & offsets & Hsent & Hsorted & Hall)
           (Hb' & [k Hsent'] & (batch & _ & Hoff & _) & _).
    split; [congruence|]. split; [lia|].
    exists (offsets ++ repeat (offset st) (S k)). split; [|split].
    - rewrite Hsent', Hsent, Hb, map_app, map_repeat. reflexivity.
    - apply sorted_then_repeat; [assumption|].
      eapply Forall_impl; [|exact Hall]. simpl. intros; lia.
    - apply Forall_app. split.
      + eapply Forall_impl; [|exact Hall]. simpl. intros; lia.
      + apply Forall_repeat. lia. }
  assert (Hstart : Q (start b f)).
  { split; [reflexivity|]. split; [simpl; lia|]. exists []. repeat constructor. }
  pose proof (while_true_invariant srv access_token Q Hstep fuel _ Hstart) as H.
  destruct (while_true fuel srv access_token (start b f)) as [items st|e st|st];
    simpl state_of.
  - destruct H as (st0 & (_ & _ & Hq) & Hfin). apply finish_state in Hfin.
    destruct Hfin as (_ & _ & -> & _ & -> & _). exact Hq.
  - apply H.
  - apply H.
Qed.

(** ** Resuming against a collection *)

Lemma remote_past_end coll access_token fuel st (o : nat) :
  (List.length coll <= o)%nat ->
  offset st = Z.of_nat o ->
  exists st',
    while_true (S fuel) (remote coll) access_token st = Returned (all_items st) st'
    /\ offset st' = Z.of_nat o
    /\ checkpoint st' = None.
Proof.
  intros Hle Ho.
  pose proof (remote_reply coll access_token (batch_size st) (List.length (sent st)) o)
    as Hreply.
  rewrite <- Ho in Hreply.
  assert (Hpost : try_post (remote coll) (sent st)
                    (payload access_token (batch_size st) (offset st))
                  = (inr (page_of coll (Z.to_nat (batch_size st)) o),
                     sent st ++ [payload access_token (batch_size st) (offset st)])).
  { unfold try_post, _post. now rewrite (send_accepted _ _ _ _ _ Hreply eq_refl). }
  simpl while_true.
  rewrite (loop_body_empty (remote coll) access_token st _ _ _ Hpost eq_refl).
  - unfold finish. eexists. split; [reflexivity|]. simpl. auto.
  - unfold batch_of; simpl. rewrite skipn_all2 by lia. now rewrite firstn_nil.
Qed.

(** X14. A resumed run returns the rest and nothing else: started from a
    checkpoint that reads as [o], a run against a collection returns exactly
    the items from position [o] on, in order, and unlinks the checkpoint; the
    [o] items before that position are not fetched again, and a checkpoint at
    or past the end of the collection gives a run that returns no item. *)
Theorem resumed_run_returns_the_rest (coll : collection) (access_token : string) (P : Z)
    (f : checkpoint_file) (o : nat) :
  1 <= P <= 30 ->
  _read_checkpoint f = Z.of_nat o ->
  exists fuel st,
    fetch_pocket_items fuel (remote coll) f access_token P
    = Returned (map snd (skipn o coll)) st
    /\ checkpoint st = None
    /\ List.length (map snd (skipn o coll)) = (List.length coll - o)%nat.
Proof.
  intros [Hlo Hhi] Hread. unfold fetch_pocket_items.
  destruct (start_uncapped P f) as (Hb & Ho & Hi & _); [unfold MAX_BATCH; lia|].
  rewrite Hread in Ho.
  assert (Hlen : List.length (map snd (skipn o coll)) = (List.length coll - o)%nat)
    by now rewrite length_map, length_skipn.
  destruct (Nat.lt_ge_cases o (List.length coll)) as [Hlt|Hge].
  - destruct (remote_run coll access_token P Hlo (List.length coll) o (start P f) 0
                ltac:(lia) Hlt Ho Hb) as (st & Hrun & _ & _ & Hck).
    rewrite Hi in Hrun. simpl app in Hrun.
    eexists _, st. split; [exact Hrun|]. split; assumption.
  - destruct (remote_past_end coll access_token 0 (start P f) o Hge Ho)
      as (st & Hrun & _ & Hck).
    rewrite Hi in Hrun.
    exists 1%nat, st. split; [|split; assumption].
    rewrite Hrun, skipn_all2 by lia. reflexivity.
Qed.

Lemma resumed_run_returns_the_rest_witness :
  exists fuel st,
    fetch_pocket_items fuel (remote (numbered 65)) (Some "60") "token" 30
    = Returned (map snd (skipn 60 (numbered 65))) st
    /\ checkpoint st = None.
Proof.
  destruct (resumed_run_returns_the_rest (numbered 65) "token" 30 (Some "60") 60
              ltac:(lia) eq_refl) as (fuel & st & Hrun & Hck & _).
  exists fuel, st. split; [exact Hrun|exact Hck].
Defined.
